(** * Client-side coordination hooks: a shallow embedding

    The hooks of [src/hooks/usePerformance.ts] (virtual scrolling,
    throttle, debounce, image preloading) and of the accessibility hook
    file (focus management, screen-reader announcements) are embedded as
    functions over explicit state.  JavaScript numbers that hold counts,
    pixel sizes and millisecond clocks are integers ([Z]); [Set<string>]
    is [gset string]; arrays are lists; React state captured by a
    [useCallback] closure is an explicit argument of the closure. *)

From Stdlib Require Import ZArith QArith Ascii Lia.
From stdpp Require Import gmap strings list.

#[local] Open Scope Z_scope.

(** ** useVirtualScroll *)

Module VirtualScroll.

(** The destructured argument of the hook; [overscan] is optional and
    defaults to 5. *)
Record Props := {
  itemCount : Z;
  itemHeight : Z;
  containerHeight : Z;
  overscan : option Z
}.

Record Range := { startIndex : Z; endIndex : Z }.

(** [Math.floor(a / b)] on integers; [Z.div] rounds towards minus
    infinity for every non-zero divisor. *)
Definition floor_div (a b : Z) : Z := a / b.

(** [getVisibleRange], a closure over [scrollTop] and the props. *)
Definition getVisibleRange
    (scrollTop itemHeight containerHeight itemCount overscan : Z) : Range :=
  let startIndex := floor_div scrollTop itemHeight in
  let endIndex :=
    Z.min (itemCount - 1) (floor_div (scrollTop + containerHeight) itemHeight) in
  {| startIndex := Z.max 0 (startIndex - overscan);
     endIndex := Z.min (itemCount - 1) (endIndex + overscan) |}.

(** What the hook returns (the ref and the scroll handler apart). *)
Record Window := {
  visibleItems : Z;
  w_startIndex : Z;
  w_endIndex : Z;
  totalHeight : Z;
  offsetY : Z
}.

Definition useVirtualScroll (p : Props) (scrollTop : Z) : Window :=
  let overscan := default 5 (overscan p) in
  let r := getVisibleRange scrollTop (itemHeight p) (containerHeight p)
                           (itemCount p) overscan in
  {| visibleItems := endIndex r - startIndex r + 1;
     w_startIndex := startIndex r;
     w_endIndex := endIndex r;
     totalHeight := itemCount p * itemHeight p;
     offsetY := startIndex r * itemHeight p |}.

(** The five numbers of a window specification, as one call. *)
Definition compute (itemCount itemHeight containerHeight scrollOffset overscan : Z)
    : Window :=
  useVirtualScroll
    {| itemCount := itemCount; itemHeight := itemHeight;
       containerHeight := containerHeight; overscan := Some overscan |}
    scrollOffset.

End VirtualScroll.

(** ** useThrottle

    The two refs of the hook are the state; [Date.now()] is an explicit
    argument.  Every [setTimeout] of the wrapper is preceded by a
    [clearTimeout] of the previous one, so at most one timeout is
    pending, and [timeoutRef] holds it.  A timeout set for [ms]
    milliseconds at time [now] runs at [now + ms]. *)

Module Throttle.
Section WithArgs.
(** [Parameters<T>], the argument tuple of the wrapped callback. *)
Context {A : Type}.

Record Timeout := { fireAt : Z; heldArgs : A }.

Record State := {
  lastCall : Z;
  timeoutRef : option Timeout;
  (** every [callback(...args)] made so far, oldest first, with the
      time at which it ran *)
  executions : list (Z * A)
}.

(** [useRef(0)] and [useRef<number>()]. *)
Definition init : State :=
  {| lastCall := 0; timeoutRef := None; executions := [] |}.

(** The wrapped function, called at time [now]. *)
Definition call (delay now : Z) (args : A) (s : State) : State :=
  if bool_decide (now - lastCall s >= delay) then
    {| lastCall := now;
       timeoutRef := timeoutRef s;
       executions := executions s ++ [(now, args)] |}
  else
    {| lastCall := lastCall s;
       timeoutRef :=
         Some {| fireAt := now + (delay - (now - lastCall s));
                 heldArgs := args |};
       executions := executions s |}.

(** The body of the timeout, run at time [now]. *)
Definition fire (now : Z) (t : Timeout) (s : State) : State :=
  {| lastCall := now;
     timeoutRef := None;
     executions := executions s ++ [(now, heldArgs t)] |}.

(** The event loop up to and including time [now]: a pending
    timeout that is due runs, at the time it was set for. *)
Definition run_to (now : Z) (s : State) : State :=
  match timeoutRef s with
  | Some t => if bool_decide (fireAt t <= now) then fire (fireAt t) t s else s
  | None => s
  end.

(** One call of the wrapper at time [c.1], after the timeouts that
    were due by then. *)
Definition step (delay : Z) (s : State) (c : Z * A) : State :=
  call delay c.1 c.2 (run_to c.1 s).

(** A stream of calls, then the event loop up to [horizon]. *)
Definition simulate (delay : Z) (calls : list (Z * A)) (horizon : Z) : State :=
  run_to horizon (foldl (step delay) init calls).



(** The four calls of the example, on a clock that reads [T0] at the
    first of them. *)
Definition example_calls (T0 : Z) (a0 a1 a2 a3 : A) : list (Z * A) :=
  [(T0, a0); (T0 + 5, a1); (T0 + 15, a2); (T0 + 25, a3)].
End WithArgs.
Arguments Timeout : clear implicits.
Arguments State : clear implicits.

(** Times that follow [prev] at least [delay] apart from one another. *)
Fixpoint spaced (delay prev : Z) (times : list Z) : Prop :=
  match times with
  | [] => True
  | t :: rest => t - prev >= delay /\ spaced delay t rest
  end.

(** Call times read off a clock that starts at [prev] and never runs
    backwards. *)
Fixpoint ascending {A : Type} (prev : Z) (calls : list (Z * A)) : Prop :=
  match calls with
  | [] => True
  | c :: rest => prev <= c.1 /\ ascending c.1 rest
  end.

(** The refs agree with the log: the executions are [delay] apart,
    [lastCall] is the time of the last of them (0 before the first), and
    a pending timeout is set for [lastCall + delay]. *)
Definition paced {A : Type} (delay : Z) (s : State A) : Prop :=
  spaced delay 0 (executions s).*1 /\
  List.last (executions s).*1 0 = lastCall s /\
  match timeoutRef s with
  | None => True
  | Some p => fireAt p = lastCall s + delay
  end.
End Throttle.

(** ** useDebounce

    The hook debounces a value: the effect, with dependencies
    [value, delay], sets a timeout that copies [value] into
    [debouncedValue], and its cleanup clears that timeout.  React
    re-runs the effect of a render only when a dependency differs from
    the previous render's. *)

Module Debounce.

(** The delay that [setTimeout] waits for: the argument is converted to
    a 32-bit signed integer, and a negative delay counts as 0. *)
Definition timer_delay (ms : Z) : Z :=
  let x := ms mod 2 ^ 32 in
  Z.max 0 (if bool_decide (x >= 2 ^ 31) then x - 2 ^ 32 else x).

Section WithValue.
Context {T : Type} `{EqDecision T}.

Record Timeout := { fireAt : Z; payload : T }.

Record State := {
  (** the dependency array of the last render *)
  deps : T * Z;
  (** the timeout of the last effect, while it is pending *)
  handler : option Timeout;
  debouncedValue : T;
  (** every [setDebouncedValue(value)] made so far, oldest first *)
  updates : list (Z * T)
}.

(** First render at time [now]: [useState(value)], then the effect. *)
Definition mount (now : Z) (value : T) (delay : Z) : State :=
  {| deps := (value, delay);
     handler := Some {| fireAt := now + timer_delay delay; payload := value |};
     debouncedValue := value;
     updates := [] |}.

(** A later render at time [now]: with changed dependencies the
    cleanup of the previous effect runs, then the effect. *)
Definition render (now : Z) (value : T) (delay : Z) (s : State) : State :=
  if decide ((value, delay) = deps s) then s
  else
    {| deps := (value, delay);
       handler := Some {| fireAt := now + timer_delay delay; payload := value |};
       debouncedValue := debouncedValue s;
       updates := updates s |}.

(** The body of the timeout. *)
Definition fire (t : Timeout) (s : State) : State :=
  {| deps := deps s;
     handler := None;
     debouncedValue := payload t;
     updates := updates s ++ [(fireAt t, payload t)] |}.

(** The event loop up to and including time [now]. *)
Definition run_to (now : Z) (s : State) : State :=
  match handler s with
  | Some t => if bool_decide (fireAt t <= now) then fire t s else s
  | None => s
  end.

(** The value changes to [c.2] at time [c.1]. *)
Definition step (delay : Z) (s : State) (c : Z * T) : State :=
  render c.1 c.2 delay (run_to c.1 s).

(** Mount, a stream of value changes, then the event loop up to
    [horizon]. *)
Definition simulate (delay : Z) (t0 : Z) (v0 : T)
    (changes : list (Z * T)) (horizon : Z) : State :=
  run_to horizon (foldl (step delay) (mount t0 v0 delay) changes).

(** A burst: every change is a new value and comes before the
    timeout of the previous one is due. *)
Fixpoint burst (delay t : Z) (v : T) (changes : list (Z * T)) : Prop :=
  match changes with
  | [] => True
  | c :: rest =>
      t <= c.1 < t + timer_delay delay /\ c.2 <> v /\ burst delay c.1 c.2 rest
  end.

(** The hook while the timeout set at [t] for the value [v] is
    pending. *)
Definition waiting (delay t : Z) (v : T) (s : State) : Prop :=
  deps s = (v, delay) /\
  handler s = Some {| fireAt := t + timer_delay delay; payload := v |}.

(** The hook with dependencies [(v, delay)] whose only timeout, set for
    [due], is pending or has run. *)
Definition settling (delay due : Z) (v : T) (s : State) : Prop :=
  deps s = (v, delay) /\
  ((handler s = Some {| fireAt := due; payload := v |} /\ updates s = []) \/
   (handler s = None /\ updates s = [(due, v)])).

(** The values that the hook has been rendered with. *)
Definition rendered (v0 : T) (changes : list (Z * T)) : list T :=
  v0 :: changes.*2.

(** Every value copied so far, and the one waiting to be copied, was
    rendered. *)
Definition honest (vs : list T) (s : State) : Prop :=
  Forall (fun u => u.2 ∈ vs) (updates s) /\
  match handler s with
  | None => True
  | Some t => payload t ∈ vs
  end.

(** Unmount: the cleanup of the last effect runs. *)
Definition unmount (s : State) : State :=
  {| deps := deps s;
     handler := None;
     debouncedValue := debouncedValue s;
     updates := updates s |}.
End WithValue.
Arguments Timeout : clear implicits.
Arguments State : clear implicits.
End Debounce.

(** ** usePreload

    The two [useState] sets are the hook state.  Every state setter of
    the hook is called with an updater function, so an update acts on
    the current state; [preloadImage] however is a [useCallback] closure
    and reads the sets of the render that created it, which no update
    mutates (an updater copies the set).  That render's state is the
    first argument of [preloadImage]. *)

Module Preload.

Record HookState := {
  loadedResources : gset string;
  loadingResources : gset string
}.

(** [useState(new Set())], twice. *)
Definition initial : HookState :=
  {| loadedResources := ∅; loadingResources := ∅ |}.

Inductive Settlement :=
| Pending
| Resolved
| Rejected (message : string).

(** The branch a call of [preloadImage] took. *)
Inductive Path :=
| CacheHit
    (** [loadedResources.has(src)]: resolved at once *)
| Polling (seen : gset string)
    (** [loadingResources.has(src)]: [checkLoaded], re-armed every
        100 ms, looks [src] up in [seen], the [loadedResources] of the
        closure *)
| Fetching
    (** a [new Image()] whose [src] was assigned *).

(** One call of [preloadImage] and the promise it returned. *)
Record Request := {
  src : string;
  path : Path;
  outcome : Settlement
}.

Record World := {
  hook : HookState;
  requests : list Request
}.

Definition start : World := {| hook := initial; requests := [] |}.

Definition has (s : gset string) (x : string) : bool := bool_decide (x ∈ s).

(** [checkLoaded]: resolve when the captured set has [src], else
    re-arm the 100 ms timeout (the promise stays pending). *)
Definition checkLoaded (seen : gset string) (src : string) : Settlement :=
  if has seen src then Resolved else Pending.

(** [preloadImage(src)], called through the closure of a render whose
    state was [render]. *)
Definition preloadImage (render : HookState) (src : string) (w : World) : World :=
  if has (loadedResources render) src then
    {| hook := hook w;
       requests := requests w ++
         [{| src := src; path := CacheHit; outcome := Resolved |}] |}
  else if has (loadingResources render) src then
    {| hook := hook w;
       requests := requests w ++
         [{| src := src; path := Polling (loadedResources render);
             outcome := checkLoaded (loadedResources render) src |}] |}
  else
    {| hook :=
         {| loadedResources := loadedResources (hook w);
            loadingResources := {[src]} ∪ loadingResources (hook w) |};
       requests := requests w ++
         [{| src := src; path := Fetching; outcome := Pending |}] |}.

(** [preloadImages(srcs)]: one [preloadImage] per element, all
    through the same closure. *)
Definition preloadImages (render : HookState) (srcs : list string) (w : World)
    : World :=
  foldl (fun w src => preloadImage render src w) w srcs.

Definition settle (i : nat) (o : Settlement) (rs : list Request) : list Request :=
  alter (fun r => {| src := src r; path := path r; outcome := o |}) i rs.

(** [img.onload] of the image of request [i]. *)
Definition onload (i : nat) (w : World) : World :=
  match requests w !! i with
  | Some {| src := src; path := Fetching; outcome := Pending |} =>
      {| hook :=
           {| loadedResources := {[src]} ∪ loadedResources (hook w);
              loadingResources := loadingResources (hook w) ∖ {[src]} |};
         requests := settle i Resolved (requests w) |}
  | _ => w
  end.

(** [img.onerror] of the image of request [i]. *)
Definition onerror (i : nat) (w : World) : World :=
  match requests w !! i with
  | Some {| src := src; path := Fetching; outcome := Pending |} =>
      {| hook :=
           {| loadedResources := loadedResources (hook w);
              loadingResources := loadingResources (hook w) ∖ {[src]} |};
         requests :=
           settle i (Rejected ("Failed to load image: " +:+ src)) (requests w) |}
  | _ => w
  end.

(** 100 ms pass: every armed [checkLoaded] runs once. *)
Definition poll (r : Request) : Request :=
  match path r, outcome r with
  | Polling seen, Pending =>
      {| src := src r; path := path r; outcome := checkLoaded seen (src r) |}
  | _, _ => r
  end.

Definition tick (w : World) : World :=
  {| hook := hook w; requests := poll <$> requests w |}.

(** What can happen to the hook. *)
Inductive Event :=
| Call (render : HookState) (src : string)
| ImageLoaded (i : nat)
| ImageFailed (i : nat)
| Tick.

Definition handle (w : World) (e : Event) : World :=
  match e with
  | Call render src => preloadImage render src w
  | ImageLoaded i => onload i w
  | ImageFailed i => onerror i w
  | Tick => tick w
  end.

Definition run (w : World) (es : list Event) : World := foldl handle w es.

(** The underlying loads issued for [key]. *)
Definition is_load_of (key : string) (r : Request) : bool :=
  match path r with
  | Fetching => bool_decide (src r = key)
  | _ => false
  end.

Definition loads_issued (key : string) (w : World) : nat :=
  length (List.filter (is_load_of key) (requests w)).

(** [isLoaded] and [isLoading] of a render. *)
Definition isLoaded (render : HookState) (src : string) : bool :=
  has (loadedResources render) src.
Definition isLoading (render : HookState) (src : string) : bool :=
  has (loadingResources render) src.

(** A request on the polling path whose captured set lacks its key. *)
Definition blind_waiter (r : Request) : Prop :=
  exists seen, path r = Polling seen /\ (src r ∉ seen) /\ outcome r = Pending.

End Preload.

(** ** useFocusManagement

    The callbacks of one render share its [focusableElements]; that list
    is their first argument.  [element.focus()] on an element of the
    list makes it [document.activeElement]. *)

Module FocusManagement.

(** A DOM element, by identity. *)
Definition Element := nat.

Record KeyboardEvent := { key : string; shiftKey : bool }.

Record State := {
  (** [document.activeElement], [None] for [null] *)
  activeElement : option Element;
  currentFocusIndex : Z
}.

(** [useState(-1)]. *)
Definition init (active : option Element) : State :=
  {| activeElement := active; currentFocusIndex := -1 |}.

(** [a === b] where [b] is an array read ([None] for [undefined]). *)
Definition same_element (a b : option Element) : bool :=
  match a, b with
  | Some x, Some y => bool_decide (x = y)
  | _, _ => false
  end.

(** [arr[i]] for a number [i]. *)
Definition at_index (arr : list Element) (i : Z) : option Element :=
  if bool_decide (0 <= i) then arr !! Z.to_nat i else None.

Definition len (arr : list Element) : Z := Z.of_nat (length arr).

Definition focusElement (focusableElements : list Element) (index : Z)
    (s : State) : State :=
  if bool_decide (index >= 0 /\ index < len focusableElements) then
    match at_index focusableElements index with
    | Some e => {| activeElement := Some e; currentFocusIndex := index |}
    | None => s
    end
  else s.

Definition focusFirst (focusableElements : list Element) : State -> State :=
  focusElement focusableElements 0.

Definition focusLast (focusableElements : list Element) : State -> State :=
  focusElement focusableElements (len focusableElements - 1).

(** [focusNext] and [focusPrevious] are [useCallback] closures over
    [currentFocusIndex]: a call computes its target from the index of
    the render that made the closure, the first argument here.  On an
    empty list the index of [focusNext] is [NaN] and [focusElement]
    does nothing. *)
Definition focusNextFrom (currentFocusIndex : Z)
    (focusableElements : list Element) (s : State) : State :=
  if bool_decide (len focusableElements = 0) then s
  else focusElement focusableElements
         (Z.rem (currentFocusIndex + 1) (len focusableElements)) s.

Definition focusPreviousFrom (currentFocusIndex : Z)
    (focusableElements : list Element) (s : State) : State :=
  focusElement focusableElements
    (if bool_decide (currentFocusIndex <= 0)
     then len focusableElements - 1
     else currentFocusIndex - 1) s.

(** The two moves called through the closures of the render of [s],
    the latest render. *)
Definition focusNext (focusableElements : list Element) (s : State) : State :=
  focusNextFrom (currentFocusIndex s) focusableElements s.

Definition focusPrevious (focusableElements : list Element) (s : State) : State :=
  focusPreviousFrom (currentFocusIndex s) focusableElements s.

(** [trapFocus(event)]: the flag tells whether [event.preventDefault()]
    was called. *)
Definition trapFocus (focusableElements : list Element) (event : KeyboardEvent)
    (s : State) : bool * State :=
  if negb (bool_decide (key event = "Tab")) then (false, s)
  else if bool_decide (len focusableElements = 0) then (true, s)
  else if shiftKey event then
    if same_element (activeElement s) (at_index focusableElements 0)
    then (true, focusLast focusableElements s)
    else (false, s)
  else
    if same_element (activeElement s)
         (at_index focusableElements (len focusableElements - 1))
    then (true, focusFirst focusableElements s)
    else (false, s).

(** A Tab key event, with or without Shift. *)
Definition tab (shift : bool) : KeyboardEvent :=
  {| key := "Tab"; shiftKey := shift |}.

End FocusManagement.

(** ** useScreenReader

    [document.body] is the list of the regions appended to it;
    [announce] writes the attributes and the text of the node it has
    just created and of no other.  Time is an explicit argument, and a
    timeout set for 1000 ms at [now] is due at [now + 1000]. *)

Module ScreenReader.

Inductive Priority := polite | assertive.

(** The [div] that [announce] creates; [node] is its identity. *)
Record LiveRegion := {
  node : nat;
  aria_live : Priority;
  aria_atomic : string;
  className : string;
  textContent : string
}.

(** A pending [setTimeout] whose closure holds the region [target]. *)
Record Timeout := { fireAt : Z; target : nat }.

Record State := {
  announcements : list string;
  (** the children of [document.body], in order *)
  body : list LiveRegion;
  (** the nodes [document.createElement] has made so far *)
  created : nat;
  timeouts : list Timeout
}.

Definition init : State :=
  {| announcements := []; body := []; created := 0%nat; timeouts := [] |}.

(** [announce(message, priority)] at time [now]; [priority] defaults
    to ['polite']. *)
Definition announce (now : Z) (message : string) (priority : option Priority)
    (s : State) : State :=
  let liveRegion :=
    {| node := created s;
       aria_live := default polite priority;
       aria_atomic := "true";
       className := "sr-only";
       textContent := message |} in
  {| announcements := announcements s ++ [message];
     body := body s ++ [liveRegion];
     created := S (created s);
     timeouts := timeouts s ++ [{| fireAt := now + 1000; target := node liveRegion |}] |}.

Definition clearAnnouncements (s : State) : State :=
  {| announcements := [];
     body := body s;
     created := created s;
     timeouts := timeouts s |}.

(** [document.body.removeChild(liveRegion)]; when the node is not a
    child the call throws and the children stay as they are. *)
Definition removeChild (n : nat) (children : list LiveRegion) : list LiveRegion :=
  List.filter (fun r => negb (Nat.eqb (node r) n)) children.

Definition due (now : Z) (t : Timeout) : bool := bool_decide (fireAt t <= now).

(** The event loop up to and including time [now]: the timeouts that
    are due run, in the order they were set. *)
Definition run_to (now : Z) (s : State) : State :=
  {| announcements := announcements s;
     body := foldl (fun b t => removeChild (target t) b) (body s)
               (List.filter (due now) (timeouts s));
     created := created s;
     timeouts := List.filter (fun t => negb (due now t)) (timeouts s) |}.

Inductive Event :=
| Announce (now : Z) (message : string) (priority : option Priority)
| Clear
| Elapse (now : Z).

Definition handle (s : State) (e : Event) : State :=
  match e with
  | Announce now message priority => announce now message priority s
  | Clear => clearAnnouncements s
  | Elapse now => run_to now s
  end.

Definition run (s : State) (es : list Event) : State := foldl handle s es.

Definition is_clear (e : Event) : bool :=
  match e with Clear => true | _ => false end.
Definition is_announce (e : Event) : bool :=
  match e with Announce _ _ _ => true | _ => false end.

(** What a batch of due timeouts leaves on the page. *)
Definition sweep (ts : list Timeout) (b : list LiveRegion) : list LiveRegion :=
  foldl (fun b t => removeChild (target t) b) b ts.

(** The region that [announce] makes. *)
Definition region (n : nat) (message : string) (priority : option Priority)
    : LiveRegion :=
  {| node := n; aria_live := default polite priority; aria_atomic := "true";
     className := "sr-only"; textContent := message |}.

(** The messages announced by a run of events. *)
Definition messages (es : list Event) : list string :=
  omap (fun e => match e with Announce _ m _ => Some m | _ => None end) es.

(** Every node on the page or held by a timeout was made by
    [createElement]. *)
Definition well_formed (s : State) : Prop :=
  Forall (fun r => (node r < created s)%nat) (body s) /\
  Forall (fun t => (target t < created s)%nat) (timeouts s).

(** Every region on the page has its removal timeout pending, and every
    pending timeout is due by [limit]. *)
Definition tracked (limit : Z) (s : State) : Prop :=
  (forall r, In r (body s) -> exists t, In t (timeouts s) /\ target t = node r) /\
  (forall t, In t (timeouts s) -> fireAt t <= limit).

(** The event is an announcement at least 1000 ms before [limit], or no
    announcement. *)
Definition settled_by (limit : Z) (e : Event) : Prop :=
  match e with
  | Announce now _ _ => now + 1000 <= limit
  | _ => True
  end.

End ScreenReader.

(** ** usePerformance: the frame counter

    [performance.now()] is an explicit argument, in whole
    milliseconds. *)

Module Performance.

Record State := {
  frameCount : Z;
  lastTime : Z;
  (** [metrics.fps] *)
  fps : Z
}.

(** [useRef(0)], [useRef(performance.now())] and the initial metrics. *)
Definition mount (now : Z) : State :=
  {| frameCount := 0; lastTime := now; fps := 0 |}.

(** [Math.round(a / b)] for integers [a] and [b > 0]: the quotient
    rounded to the nearest integer, halves upwards. *)
Definition round_div (a b : Z) : Z := (2 * a + b) / (2 * b).

(** [measureFPS], run by an animation frame at time [now]. *)
Definition measureFPS (now : Z) (s : State) : State :=
  let frameCount := frameCount s + 1 in
  if bool_decide (now - lastTime s >= 1000) then
    {| frameCount := 0;
       lastTime := now;
       fps := round_div (frameCount * 1000) (now - lastTime s) |}
  else
    {| frameCount := frameCount; lastTime := lastTime s; fps := fps s |}.

(** Animation frames at the given times, in order. *)
Definition frames (s : State) (times : list Z) : State :=
  foldl (fun s now => measureFPS now s) s times.

End Performance.

(** ** useLazyLoad

    The effect has the dependencies [threshold, hasLoaded]: each time it
    runs it makes a new observer, whose callback reads the [hasLoaded]
    of that render, and observes the element (when the ref holds
    one). *)

Module LazyLoad.

Record State := {
  isVisible : bool;
  hasLoaded : bool;
  (** the [hasLoaded] that the callback of the current observer reads *)
  seenLoaded : bool;
  (** whether the current observer is observing the element *)
  observing : bool
}.

(** First render and its effect; [element] tells whether
    [elementRef.current] is set. *)
Definition mount (element : bool) : State :=
  {| isVisible := false; hasLoaded := false;
     seenLoaded := false; observing := element |}.

(** The effect of a later render: cleanup, new observer, observe. *)
Definition effect (element : bool) (s : State) : State :=
  {| isVisible := isVisible s; hasLoaded := hasLoaded s;
     seenLoaded := hasLoaded s; observing := element |}.

Inductive Event :=
| Entry (isIntersecting : bool)
    (** the observer delivers an entry to its callback *)
| Commit (element : bool)
    (** React commits a re-render with the same threshold *)
| Threshold (element : bool)
    (** React commits a re-render with another threshold *).

Definition handle (s : State) (e : Event) : State :=
  match e with
  | Entry isIntersecting =>
      if observing s && (isIntersecting && negb (seenLoaded s)) then
        {| isVisible := true; hasLoaded := true;
           seenLoaded := seenLoaded s; observing := false |}
      else s
  | Commit element =>
      if bool_decide (hasLoaded s = seenLoaded s) then s else effect element s
  | Threshold element => effect element s
  end.

Definition run (s : State) (es : list Event) : State := foldl handle s es.




End LazyLoad.

(** ** useColorContrast

    [getLuminance] and the quotient of [getContrastRatio] are
    floating-point computations; the double that the quotient yields for
    two parsed colours is a parameter, [ratio], a rational number. *)

Module ColorContrast.

Record RGB := { r : Z; g : Z; b : Z }.

(** One character of the class [[a-f\d]] under the flag [i], with its
    value in base 16. *)
Definition hex_digit (c : Ascii.ascii) : option Z :=
  let n := Z.of_N (Ascii.N_of_ascii c) in
  if bool_decide (48 <= n <= 57) then Some (n - 48)
  else if bool_decide (97 <= n <= 102) then Some (n - 87)
  else if bool_decide (65 <= n <= 70) then Some (n - 55)
  else None.

(** [parseInt(group, 16)] of a group of two such characters. *)
Definition hex_pair (hi lo : Ascii.ascii) : option Z :=
  match hex_digit hi, hex_digit lo with
  | Some h, Some l => Some (16 * h + l)
  | _, _ => None
  end.

(** The optional leading [#] of the pattern. *)
Definition strip_hash (hex : string) : string :=
  match hex with
  | String "#"%char rest => rest
  | _ => hex
  end.

(** [hexToRgb]: the pattern matches an optional [#] followed by exactly
    three groups of two hexadecimal characters. *)
Definition hexToRgb (hex : string) : option RGB :=
  match String.list_ascii_of_string (strip_hash hex) with
  | [r1; r2; g1; g2; b1; b2] =>
      match hex_pair r1 r2, hex_pair g1 g2, hex_pair b1 b2 with
      | Some r, Some g, Some b => Some {| r := r; g := g; b := b |}
      | _, _, _ => None
      end
  | _ => None
  end.

Section WithRatio.
(** The double [(brightest + 0.05) / (darkest + 0.05)] of two parsed
    colours. *)
Variable ratio : RGB -> RGB -> Q.

Definition getContrastRatio (color1 color2 : string) : Q :=
  match hexToRgb color1, hexToRgb color2 with
  | Some rgb1, Some rgb2 => ratio rgb1 rgb2
  | _, _ => 0%Q
  end.

(** [x >= y] on numbers. *)
Definition geq (x y : Q) : bool := Qle_bool y x.

Definition meetsWCAG_AA (foreground background : string) (isLargeText : bool)
    : bool :=
  let ratio := getContrastRatio foreground background in
  if isLargeText then geq ratio 3%Q else geq ratio (9 # 2)%Q.

Definition meetsWCAG_AAA (foreground background : string) (isLargeText : bool)
    : bool :=
  let ratio := getContrastRatio foreground background in
  if isLargeText then geq ratio (9 # 2)%Q else geq ratio 7%Q.
End WithRatio.

End ColorContrast.

(** ** Theorems: useVirtualScroll *)

Module VirtualScrollFacts.
Import VirtualScroll.

Example compute_spec_example :
  compute 100 40 400 800 2 =
  {| visibleItems := 15; w_startIndex := 18; w_endIndex := 32;
     totalHeight := 4000; offsetY := 720 |}.
Proof. reflexivity. Qed.

Example default_overscan :
  w_startIndex (useVirtualScroll
    {| itemCount := 100; itemHeight := 40; containerHeight := 400;
       overscan := None |} 800) = 15.
Proof. reflexivity. Qed.

(** The end index is clamped twice: once before and once after the
    overscan is added. *)
Lemma w_endIndex_unfold n h c s o :
  w_endIndex (compute n h c s o) =
  Z.min (n - 1) (Z.min (n - 1) ((s + c) / h) + o).
Proof. reflexivity. Qed.

Lemma w_startIndex_unfold n h c s o :
  w_startIndex (compute n h c s o) = Z.max 0 (s / h - o).
Proof. reflexivity. Qed.

(** With a non-negative overscan the inner clamp is absorbed. *)
Lemma double_clamp a b o :
  0 <= o -> Z.min a (Z.min a b + o) = Z.min a (b + o).
Proof. lia. Qed.

(** C4, as stated, fails for a negative overscan: the inner clamp to
    [itemCount - 1] happens before the overscan is added, so with ten
    items, a viewport reaching row 20 and overscan -2 the hook ends at
    row 7 where the formula gives 9. *)
Lemma C4_counterexample :
  0 < 1 /\
  w_endIndex (compute 10 1 20 0 (-2)) = 7 /\
  Z.min (10 - 1) ((0 + 20) / 1 + (-2)) = 9 /\
  w_endIndex (compute 10 1 20 0 (-2)) <> Z.min (10 - 1) ((0 + 20) / 1 + (-2)).
Proof. repeat split; try reflexivity; discriminate. Qed.

(** C4 (amended): for every input with [itemHeight > 0] and
    [overscan >= 0], the window has
    startIndex = max(0, floor(scrollOffset/itemHeight) - overscan),
    endIndex = min(itemCount-1, floor((scrollOffset+containerHeight)/itemHeight) + overscan),
    totalHeight = itemCount*itemHeight and offsetY = startIndex*itemHeight;
    and the input (100, 40, 400, 800, 2) yields 18, 32, 4000, 720. *)
Theorem C4_window_formulas n h c s o :
  0 < h -> 0 <= o ->
  (let w := compute n h c s o in
   w_startIndex w = Z.max 0 (s / h - o) /\
   w_endIndex w = Z.min (n - 1) ((s + c) / h + o) /\
   totalHeight w = n * h /\
   offsetY w = w_startIndex w * h) /\
  (let w := compute 100 40 400 800 2 in
   w_startIndex w = 18 /\ w_endIndex w = 32 /\
   totalHeight w = 4000 /\ offsetY w = 720).
Proof.
  intros _ Ho. split.
  - cbv zeta. rewrite w_endIndex_unfold, w_startIndex_unfold.
    rewrite (double_clamp _ _ _ Ho). repeat split; reflexivity.
  - repeat split; reflexivity.
Qed.

Lemma C4_window_formulas_witness :
  let w := compute 7 3 10 5 1 in
  w_startIndex w = Z.max 0 (5 / 3 - 1) /\
  w_endIndex w = Z.min (7 - 1) ((5 + 10) / 3 + 1) /\
  totalHeight w = 7 * 3 /\
  offsetY w = w_startIndex w * 3.
Proof. exact (proj1 (C4_window_formulas 7 3 10 5 1 ltac:(lia) ltac:(lia))). Defined.





End VirtualScrollFacts.

(** ** Theorems: useThrottle *)

Module ThrottleFacts.
Import Throttle.

Section WithArgs.
Context {A : Type}.
Implicit Types (s : State A) (c : Z * A) (calls : list (Z * A)).

Lemma run_to_idle now s : timeoutRef s = None -> run_to now s = s.
Proof. unfold run_to. intros ->. reflexivity. Qed.


Lemma run_to_due now s t :
  timeoutRef s = Some t -> fireAt t <= now ->
  run_to now s = fire (fireAt t) t s.
Proof.
  unfold run_to. intros -> Hle. rewrite bool_decide_eq_true_2; done.
Qed.

(** Leading edge: once [delay] has passed since [lastCall], a call
    runs the callback at once. *)
Lemma call_leading delay now a s :
  now - lastCall s >= delay ->
  call delay now a s =
  {| lastCall := now; timeoutRef := timeoutRef s;
     executions := executions s ++ [(now, a)] |}.
Proof. unfold call. intros H. rewrite bool_decide_eq_true_2; done. Qed.

(** Within the interval a call only replaces the pending timeout,
    which is set for the end of the interval. *)
Lemma call_held delay now a s :
  now - lastCall s < delay ->
  call delay now a s =
  {| lastCall := lastCall s;
     timeoutRef := Some {| fireAt := lastCall s + delay; heldArgs := a |};
     executions := executions s |}.
Proof.
  unfold call. intros H. rewrite bool_decide_eq_false_2; [| lia].
  do 3 f_equal. lia.
Qed.





End WithArgs.

Example literal_clock :
  executions (simulate 20 (example_calls 0 "a" "b" "c" "d") 40) =
  [(20, "c"); (40, "d")].
Proof. reflexivity. Qed.




End ThrottleFacts.

(** ** Theorems: useDebounce *)

Module DebounceFacts.
Import Debounce.

Section WithValue.
Context {T : Type} `{EqDecision T}.
Implicit Types (s : State T) (c : Z * T) (changes : list (Z * T)).

Lemma run_to_pending now s t :
  handler s = Some t -> now < fireAt t -> run_to now s = s.
Proof.
  unfold run_to. intros -> Hlt. rewrite bool_decide_eq_false_2; [done | lia].
Qed.

Lemma run_to_fires now s t :
  handler s = Some t -> fireAt t <= now -> run_to now s = fire t s.
Proof.
  unfold run_to. intros -> Hle. rewrite bool_decide_eq_true_2; done.
Qed.

(** In its range the delay is waited for as it is. *)
Lemma timer_delay_small ms : 0 <= ms < 2 ^ 31 -> timer_delay ms = ms.
Proof.
  intros Hms. unfold timer_delay. cbv zeta.
  rewrite Z.mod_small by lia. rewrite bool_decide_eq_false_2 by lia. lia.
Qed.

Lemma timer_delay_nonneg ms : 0 <= timer_delay ms.
Proof. unfold timer_delay. cbv zeta. lia. Qed.

(** A render with a new value clears the pending timeout and sets
    one for [now + delay], whatever was pending. *)
Lemma render_new_value now v delay s :
  v <> (deps s).1 ->
  render now v delay s =
  {| deps := (v, delay);
     handler := Some {| fireAt := now + timer_delay delay; payload := v |};
     debouncedValue := debouncedValue s;
     updates := updates s |}.
Proof.
  intros Hne. unfold render. case_decide as E; [| reflexivity].
  rewrite <- E in Hne. done.
Qed.

(** A render with the same value and delay leaves the timeout as it
    is: the effect does not run again. *)
Lemma render_same_value now s :
  render now (deps s).1 (deps s).2 s = s.
Proof. unfold render. destruct (deps s). cbn. by rewrite decide_True. Qed.

Lemma step_waiting delay t (v : T) s c :
  waiting delay t v s -> t <= c.1 < t + timer_delay delay -> c.2 <> v ->
  let s' := step delay s c in
  waiting delay c.1 c.2 s' /\
  updates s' = updates s /\ debouncedValue s' = debouncedValue s.
Proof.
  intros [Hdeps Hh] Hc Hne. cbv zeta. unfold step.
  rewrite (run_to_pending _ _ _ Hh) by (cbn; lia).
  rewrite render_new_value by (by rewrite Hdeps).
  by repeat split.
Qed.

(** The last element of a non-empty list, with the head as the
    default for the tail. *)
Lemma last_cons_default {X : Type} (rest : list X) : forall x dflt,
  List.last (x :: rest) dflt = List.last rest x.
Proof.
  induction rest as [|y rest IH]; intros x dflt; [reflexivity |].
  change (List.last (x :: y :: rest) dflt) with (List.last (y :: rest) dflt).
  by rewrite !IH.
Qed.

(** During a burst nothing is copied into [debouncedValue]; what is
    pending afterwards is the timeout of the last change. *)
Lemma burst_waiting delay changes : forall t (v : T) s,
  waiting delay t v s -> burst delay t v changes ->
  let s' := foldl (step delay) s changes in
  waiting delay (List.last changes (t, v)).1 (List.last changes (t, v)).2 s' /\
  updates s' = updates s /\ debouncedValue s' = debouncedValue s.
Proof.
  induction changes as [|c rest IH]; intros t v s Hw Hb; [done |].
  destruct Hb as (Hc & Hne & Hrest). cbn [foldl].
  destruct (step_waiting delay t v s c Hw Hc Hne) as (Hw' & Hu & Hd).
  destruct (IH c.1 c.2 _ Hw' Hrest) as (Hw'' & Hu' & Hd').
  rewrite <- Hu, <- Hd. split; [| done].
  rewrite last_cons_default. by destruct c.
Qed.

Lemma mount_waiting delay t (v : T) : waiting delay t v (mount t v delay).
Proof. by split. Qed.

(** The general rule of the debounce: after a burst the value is
    copied once, when the timeout of the last change is due, and it is
    the last value. *)
Lemma burst_rule delay t0 v0 changes :
  burst delay t0 v0 changes ->
  let final := List.last changes (t0, v0) in
  (forall horizon, horizon < final.1 + timer_delay delay ->
     updates (simulate delay t0 v0 changes horizon) = [] /\
     debouncedValue (simulate delay t0 v0 changes horizon) = v0) /\
  (forall horizon, final.1 + timer_delay delay <= horizon ->
     updates (simulate delay t0 v0 changes horizon) =
       [(final.1 + timer_delay delay, final.2)] /\
     debouncedValue (simulate delay t0 v0 changes horizon) = final.2).
Proof.
  intros Hb. cbv zeta.
  destruct (burst_waiting delay changes t0 v0 _ (mount_waiting delay t0 v0) Hb)
    as ([Hdeps Hh] & Hu & Hd).
  cbn in Hu, Hd. unfold simulate. split; intros horizon Hh'.
  - rewrite (run_to_pending _ _ _ Hh) by (cbn; lia). by rewrite Hu, Hd.
  - rewrite (run_to_fires _ _ _ Hh) by (cbn; lia). cbn. by rewrite Hu.
Qed.

(** A render with the dependencies of the previous one changes
    nothing. *)
Lemma render_unchanged now (v : T) delay s :
  deps s = (v, delay) -> render now v delay s = s.
Proof. intros Hdeps. unfold render. by rewrite decide_True. Qed.
End WithValue.

Example same_value_keeps_timer :
  updates (simulate 20 0 "a" [(5, "a"); (10, "a")] 20) = [(20, "a")].
Proof. reflexivity. Qed.

(** C9, as stated, fails when a call repeats the value: the effect
    depends on [value] and [delay], so the render at t=10 with the
    value of t=5 does not clear the timeout set at t=5, and the one
    update happens at t=25, not at t=30. *)
Lemma C9_counterexample :
  (forall horizon, 25 <= horizon ->
     updates (simulate 20 0 "a" [(5, "b"); (10, "b")] horizon) = [(25, "b")]) /\
  (forall horizon,
     updates (simulate 20 0 "a" [(5, "b"); (10, "b")] horizon) <> [(30, "b")]).
Proof.
  unfold simulate.
  assert (Hs : foldl (step 20) (mount 0 "a" 20) [(5, "b"); (10, "b")] =
    {| deps := ("b", 20); handler := Some {| fireAt := 25; payload := "b" |};
       debouncedValue := "a"; updates := [] |}) by reflexivity.
  rewrite Hs. unfold run_to. cbn [handler fireAt]. split; intros horizon.
  - intros Hh. by rewrite bool_decide_eq_true_2.
  - case_bool_decide; cbn; discriminate.
Qed.

(** C9 (amended): with interval 20, a value that is set at t=0 and
    changes to a different value at t=5 and again at t=10 is copied
    into the debounced value exactly once, at t=30, and the value
    copied is the one of t=10.  For every interval in the range of a
    timer delay ([0 <= delay < 2^31]), each change of the value before
    the pending timeout is due cancels that timeout, and a render that
    repeats the value and the delay leaves it as it is, so of any burst
    of changes only the last takes effect, [delay] after it. *)
Theorem C9_debounce_last_wins {T : Type} `{EqDecision T}
    (T0 : Z) (v0 v1 v2 : T) (delay t0 : Z) (w0 : T) (changes : list (Z * T)) :
  v1 <> v0 -> v2 <> v1 ->
  0 <= delay < 2 ^ 31 ->
  burst delay t0 w0 changes ->
  ((forall horizon, horizon < T0 + 30 ->
      updates (simulate 20 T0 v0 [(T0 + 5, v1); (T0 + 10, v2)] horizon) = []) /\
   (forall horizon, T0 + 30 <= horizon ->
      updates (simulate 20 T0 v0 [(T0 + 5, v1); (T0 + 10, v2)] horizon) =
        [(T0 + 30, v2)] /\
      debouncedValue (simulate 20 T0 v0 [(T0 + 5, v1); (T0 + 10, v2)] horizon)
        = v2)) /\
  (let final := List.last changes (t0, w0) in
   (forall horizon, horizon < final.1 + delay ->
      updates (simulate delay t0 w0 changes horizon) = [] /\
      debouncedValue (simulate delay t0 w0 changes horizon) = w0) /\
   (forall horizon, final.1 + delay <= horizon ->
      updates (simulate delay t0 w0 changes horizon) =
        [(final.1 + delay, final.2)] /\
      debouncedValue (simulate delay t0 w0 changes horizon) = final.2)) /\
  (forall now (s : State T), deps s = (w0, delay) -> render now w0 delay s = s).
Proof.
  intros H10 H21 Hdelay Hb. split; [| split].
  - assert (H20 : timer_delay 20 = 20) by reflexivity.
    assert (Hex : burst 20 T0 v0 [(T0 + 5, v1); (T0 + 10, v2)]).
    { cbn [burst fst snd]. rewrite H20. repeat split; (lia || done). }
    destruct (burst_rule 20 T0 v0 _ Hex) as [Hbefore Hafter].
    cbn [List.last fst snd] in Hbefore, Hafter. rewrite H20 in Hbefore, Hafter.
    split.
    + intros horizon Hh. apply Hbefore. lia.
    + intros horizon Hh.
      destruct (Hafter horizon ltac:(lia)) as [Hu Hd].
      rewrite Hu, Hd. split; [| done]. do 2 f_equal. lia.
  - pose proof (burst_rule delay t0 w0 changes Hb) as Hrule.
    cbv zeta in Hrule |- *. by rewrite (timer_delay_small delay Hdelay) in Hrule.
  - intros now s. apply render_unchanged.
Qed.

Lemma C9_debounce_last_wins_witness :
  ((forall horizon, horizon < 0 + 30 ->
      updates (simulate 20 0 "a" [(0 + 5, "ab"); (0 + 10, "abc")] horizon) = []) /\
   (forall horizon, 0 + 30 <= horizon ->
      updates (simulate 20 0 "a" [(0 + 5, "ab"); (0 + 10, "abc")] horizon) =
        [(0 + 30, "abc")] /\
      debouncedValue (simulate 20 0 "a" [(0 + 5, "ab"); (0 + 10, "abc")] horizon)
        = "abc")) /\
  (let final := List.last [(120, "y"); (400, "z")] (100, "x") in
   (forall horizon, horizon < final.1 + 300 ->
      updates (simulate 300 100 "x" [(120, "y"); (400, "z")] horizon) = [] /\
      debouncedValue (simulate 300 100 "x" [(120, "y"); (400, "z")] horizon)
        = "x") /\
   (forall horizon, final.1 + 300 <= horizon ->
      updates (simulate 300 100 "x" [(120, "y"); (400, "z")] horizon) =
        [(final.1 + 300, final.2)] /\
      debouncedValue (simulate 300 100 "x" [(120, "y"); (400, "z")] horizon)
        = final.2)) /\
  (forall now (s : State string), deps s = ("x", 300) -> render now "x" 300 s = s).
Proof.
  apply (C9_debounce_last_wins 0 "a" "ab" "abc" 300 100 "x"
           [(120, "y"); (400, "z")]).
  - discriminate.
  - discriminate.
  - lia.
  - assert (H300 : timer_delay 300 = 300) by reflexivity.
    cbn [burst fst snd]. rewrite H300. repeat split; (lia || discriminate).
Defined.

End DebounceFacts.

(** ** Theorems: usePreload *)

Module PreloadFacts.
Import Preload.

Implicit Types (w : World) (render : HookState) (key : string)
  (r : Request) (e : Event) (es : list Event).

Lemma has_true s key : key ∈ s -> has s key = true.
Proof. intros. by apply bool_decide_eq_true_2. Qed.

Lemma has_false s key : key ∉ s -> has s key = false.
Proof. intros. by apply bool_decide_eq_false_2. Qed.

(** The three branches of [preloadImage]. *)
Lemma preloadImage_hit render key w :
  key ∈ loadedResources render ->
  preloadImage render key w =
  {| hook := hook w;
     requests := requests w ++
       [{| src := key; path := CacheHit; outcome := Resolved |}] |}.
Proof. intros H. unfold preloadImage. by rewrite has_true. Qed.

Lemma preloadImage_wait render key w :
  key ∉ loadedResources render -> key ∈ loadingResources render ->
  preloadImage render key w =
  {| hook := hook w;
     requests := requests w ++
       [{| src := key; path := Polling (loadedResources render);
           outcome := Pending |}] |}.
Proof.
  intros H1 H2. unfold preloadImage, checkLoaded.
  by rewrite has_false, has_true.
Qed.

Lemma preloadImage_fetch render key w :
  key ∉ loadedResources render -> key ∉ loadingResources render ->
  preloadImage render key w =
  {| hook :=
       {| loadedResources := loadedResources (hook w);
          loadingResources := {[key]} ∪ loadingResources (hook w) |};
     requests := requests w ++
       [{| src := key; path := Fetching; outcome := Pending |}] |}.
Proof.
  intros H1 H2. unfold preloadImage. by rewrite !has_false.
Qed.

Lemma loads_issued_snoc key h rs r :
  loads_issued key {| hook := h; requests := rs ++ [r] |} =
  (loads_issued key {| hook := h; requests := rs |} +
   (if is_load_of key r then 1 else 0))%nat.
Proof.
  unfold loads_issued. cbn [requests].
  rewrite List.filter_app, length_app. cbn. by destruct (is_load_of key r).
Qed.

Lemma loads_issued_hook key h w :
  loads_issued key {| hook := h; requests := requests w |} = loads_issued key w.
Proof. reflexivity. Qed.

(** Every call through a closure that sees [key] neither loaded nor
    loading issues one more load, whatever the current state is. *)
Lemma fetch_issues_load render key w :
  key ∉ loadedResources render -> key ∉ loadingResources render ->
  loads_issued key (preloadImage render key w) = S (loads_issued key w).
Proof.
  intros H1 H2. rewrite preloadImage_fetch by done.
  rewrite loads_issued_snoc, loads_issued_hook. cbn.
  rewrite bool_decide_eq_true_2 by done. lia.
Qed.

(** C1 (the code at the failing input): two requests for [key] made
    through the closure of one render, which sees [key] neither loaded
    nor loading, issue two underlying loads: the first request's
    update of [loadingResources] is not visible to the closure. *)
Theorem C1_same_render_loads_twice render key w :
  key ∉ loadedResources render -> key ∉ loadingResources render ->
  loads_issued key (preloadImages render [key; key] w) =
  S (S (loads_issued key w)).
Proof.
  intros H1 H2. cbn [preloadImages foldl].
  by rewrite !fetch_issues_load.
Qed.

Lemma C1_same_render_loads_twice_witness :
  loads_issued "hero.png" (preloadImages initial ["hero.png"; "hero.png"] start) =
  S (S (loads_issued "hero.png" start)).
Proof.
  apply (C1_same_render_loads_twice initial "hero.png" start);
    cbn; set_solver.
Defined.

Example both_loads_pending :
  requests (preloadImages initial ["hero.png"; "hero.png"] start) =
  [{| src := "hero.png"; path := Fetching; outcome := Pending |};
   {| src := "hero.png"; path := Fetching; outcome := Pending |}].
Proof. reflexivity. Qed.

(** The request that the polling branch creates is one. *)
Lemma waiter_is_blind render key w :
  key ∉ loadedResources render -> key ∈ loadingResources render ->
  exists r, requests (preloadImage render key w) !! length (requests w) = Some r /\
            src r = key /\ blind_waiter r.
Proof.
  intros H1 H2. rewrite preloadImage_wait by done. cbn [requests].
  eexists. split.
  - rewrite lookup_app_r by lia. by rewrite Nat.sub_diag.
  - split; [reflexivity |]. by exists (loadedResources render).
Qed.

Lemma settle_other i j o (rs : list Request) :
  i <> j -> settle j o rs !! i = rs !! i.
Proof. intros. unfold settle. by apply list_lookup_alter_ne. Qed.

(** No event settles a blind waiter: image events belong to other
    requests, and [checkLoaded] sees the same set at every tick. *)
Lemma blind_waiter_step w i r e :
  requests w !! i = Some r -> blind_waiter r ->
  requests (handle w e) !! i = Some r.
Proof.
  intros Hi (seen & Hp & Hseen & Ho).
  destruct e as [render key | j | j |]; cbn [handle].
  - unfold preloadImage.
    destruct (has _ _); [| destruct (has _ _)]; cbn [requests];
      by apply lookup_app_l_Some.
  - unfold onload.
    destruct (requests w !! j) as [[s [] []]|] eqn:E; try done.
    cbn [requests]. rewrite settle_other; [done |].
    intros ->. rewrite Hi in E. injection E as ->. cbn in Hp. discriminate.
  - unfold onerror.
    destruct (requests w !! j) as [[s [] []]|] eqn:E; try done.
    cbn [requests]. rewrite settle_other; [done |].
    intros ->. rewrite Hi in E. injection E as ->. cbn in Hp. discriminate.
  - cbn [tick requests]. rewrite list_lookup_fmap, Hi. cbn. f_equal.
    unfold poll, checkLoaded. rewrite Hp, Ho.
    rewrite has_false by done. destruct r; cbn in *; by subst.
Qed.

Lemma blind_waiter_forever es : forall w i r,
  requests w !! i = Some r -> blind_waiter r ->
  requests (run w es) !! i = Some r.
Proof.
  induction es as [|e es IH]; intros w i r Hi Hb; [done |].
  cbn [run foldl]. apply IH; [| done]. by apply blind_waiter_step.
Qed.

(** The failure path of the request that owns the image. *)
Lemma onerror_rejects_owner w i key :
  requests w !! i = Some {| src := key; path := Fetching; outcome := Pending |} ->
  requests (onerror i w) !! i =
    Some {| src := key; path := Fetching;
            outcome := Rejected ("Failed to load image: " +:+ key) |} /\
  (key ∉ loadingResources (hook (onerror i w))) /\
  loadedResources (hook (onerror i w)) = loadedResources (hook w) /\
  length (requests (onerror i w)) = length (requests w).
Proof.
  intros Hi. unfold onerror. rewrite Hi. cbn [requests hook]. repeat split.
  - unfold settle. rewrite list_lookup_alter_eq, Hi. reflexivity.
  - cbn. apply not_elem_of_difference. right. by apply elem_of_singleton.
  - unfold settle. by rewrite length_alter.
Qed.

(** After a failure a request made through the closure of the next
    render starts a fresh load. *)
Lemma retry_after_failure w i key :
  requests w !! i = Some {| src := key; path := Fetching; outcome := Pending |} ->
  key ∉ loadedResources (hook w) ->
  let w' := onerror i w in
  loads_issued key (preloadImage (hook w') key w') = S (loads_issued key w').
Proof.
  intros Hi Hnl. cbv zeta.
  destruct (onerror_rejects_owner w i key Hi) as (_ & Hload & Hsame & _).
  apply fetch_issues_load; [by rewrite Hsame | done].
Qed.

(** C2 (the code at the failing input): the first request starts the
    load of [key]; after the re-render a second request finds [key]
    loading and waits; the load fails.  The first promise is rejected
    and [key] leaves the loading set, but the waiter is not rejected:
    whatever happens later, its promise stays pending. *)
Theorem C2_waiter_never_rejected key es :
  let w1 := preloadImage initial key start in
  let w2 := preloadImage (hook w1) key w1 in
  let w3 := onerror 0 w2 in
  outcome <$> (requests w3 !! 0%nat) =
    Some (Rejected ("Failed to load image: " +:+ key)) /\
  (key ∉ loadingResources (hook w3)) /\
  path <$> (requests w2 !! 1%nat) = Some (Polling ∅) /\
  outcome <$> (requests (run w3 es) !! 1%nat) = Some Pending.
Proof.
  cbv zeta.
  assert (H1 : preloadImage initial key start =
    {| hook := {| loadedResources := ∅; loadingResources := {[key]} ∪ ∅ |};
       requests := [{| src := key; path := Fetching; outcome := Pending |}] |}).
  { rewrite preloadImage_fetch by (cbn; set_solver). reflexivity. }
  rewrite H1. cbn [hook].
  rewrite preloadImage_wait by (cbn; set_solver). cbn [requests app hook].
  set (w2 := {| hook := _; requests := _ |}).
  destruct (onerror_rejects_owner w2 0 key eq_refl) as (Hrej & Hload & _ & _).
  split; [by rewrite Hrej |]. split; [done |]. split; [reflexivity |].
  set (waiter := {| src := key; path := Polling ∅; outcome := Pending |}).
  assert (Hblind : blind_waiter waiter).
  { exists ∅. repeat split. apply not_elem_of_empty. }
  rewrite (blind_waiter_forever es (onerror 0 w2) 1 waiter); [done | | done].
  by apply (blind_waiter_step w2 1 waiter (ImageFailed 0)).
Qed.

Lemma onload_marks_loaded w i key :
  requests w !! i = Some {| src := key; path := Fetching; outcome := Pending |} ->
  (key ∈ loadedResources (hook (onload i w))) /\
  (key ∉ loadingResources (hook (onload i w))) /\
  requests (onload i w) !! i =
    Some {| src := key; path := Fetching; outcome := Resolved |}.
Proof.
  intros Hi. unfold onload. rewrite Hi. cbn [requests hook]. repeat split.
  - cbn. apply elem_of_union_l. by apply elem_of_singleton.
  - cbn. apply not_elem_of_difference. right. by apply elem_of_singleton.
  - unfold settle. rewrite list_lookup_alter_eq, Hi. reflexivity.
Qed.

(** The same holds when the load succeeds: the waiter polls the set
    of its own render, so it misses the success as well. *)
Lemma waiter_misses_success key es :
  let w1 := preloadImage initial key start in
  let w2 := preloadImage (hook w1) key w1 in
  let w3 := onload 0 w2 in
  outcome <$> (requests w3 !! 0%nat) = Some Resolved /\
  isLoaded (hook w3) key = true /\
  outcome <$> (requests (run w3 es) !! 1%nat) = Some Pending.
Proof.
  cbv zeta.
  rewrite (preloadImage_fetch initial key start) by apply not_elem_of_empty.
  cbn [hook].
  rewrite preloadImage_wait;
    [| apply not_elem_of_empty
     | apply elem_of_union_l; by apply elem_of_singleton].
  cbn [requests app hook].
  set (w2 := {| hook := _; requests := _ |}).
  destruct (onload_marks_loaded w2 0 key eq_refl) as (Hin & _ & Hres).
  split; [by rewrite Hres |]. split; [by apply has_true |].
  set (waiter := {| src := key; path := Polling ∅; outcome := Pending |}).
  assert (Hblind : blind_waiter waiter).
  { exists ∅. repeat split. apply not_elem_of_empty. }
  rewrite (blind_waiter_forever es (onload 0 w2) 1 waiter); [done | | done].
  by apply (blind_waiter_step w2 1 waiter (ImageLoaded 0)).
Qed.

(** The loaded set only grows. *)
Lemma loaded_step key w e :
  key ∈ loadedResources (hook w) -> key ∈ loadedResources (hook (handle w e)).
Proof.
  intros H. destruct e as [render k | j | j |]; cbn [handle].
  - unfold preloadImage.
    destruct (has _ _); [| destruct (has _ _)]; cbn; done.
  - unfold onload.
    destruct (requests w !! j) as [[s [] []]|] eqn:E; cbn; try done. set_solver.
  - unfold onerror.
    destruct (requests w !! j) as [[s [] []]|] eqn:E; cbn; done.
  - done.
Qed.

Lemma loaded_forever key es : forall w,
  key ∈ loadedResources (hook w) -> key ∈ loadedResources (hook (run w es)).
Proof.
  induction es as [|e es IH]; intros w H; [done |].
  cbn [run foldl]. apply IH. by apply loaded_step.
Qed.

(** Once the load of [key] has completed successfully, then after
    any further events a request for [key], made through the closure
    of a render of the state reached, is resolved at once, issues no
    load and leaves the state of the hook as it is. *)
Lemma hit_through_current_closure w0 i key es :
  requests w0 !! i = Some {| src := key; path := Fetching; outcome := Pending |} ->
  let w := run (onload i w0) es in
  let w' := preloadImage (hook w) key w in
  isLoaded (hook w) key = true /\
  requests w' = requests w ++
    [{| src := key; path := CacheHit; outcome := Resolved |}] /\
  loads_issued key w' = loads_issued key w /\
  hook w' = hook w.
Proof.
  intros Hi. cbv zeta.
  destruct (onload_marks_loaded w0 i key Hi) as (Hin & _ & _).
  pose proof (loaded_forever key es _ Hin) as Hin'.
  rewrite preloadImage_hit by done. cbn [requests hook].
  split; [by apply has_true |]. split; [done |]. split; [| done].
  rewrite loads_issued_snoc. cbn.
  destruct (run (onload i w0) es). cbn. unfold loads_issued. cbn. lia.
Qed.

Example hit_through_current_closure_example :
  let w0 := preloadImage initial "hero.png" start in
  let w := run (onload 0 w0) [Call initial "logo.png"; Tick; ImageFailed 1] in
  let w' := preloadImage (hook w) "hero.png" w in
  isLoaded (hook w) "hero.png" = true /\
  requests w' = requests w ++
    [{| src := "hero.png"; path := CacheHit; outcome := Resolved |}] /\
  loads_issued "hero.png" w' = loads_issued "hero.png" w /\
  hook w' = hook w.
Proof.
  apply (hit_through_current_closure (preloadImage initial "hero.png" start) 0
           "hero.png" [Call initial "logo.png"; Tick; ImageFailed 1]).
  reflexivity.
Qed.

(** C8 (the code at the failing input): the load of [key] has completed
    successfully and [key] is in [loadedResources], yet a request made
    through a closure of a render from before the load (the one that
    issued it, for one), which sees [key] neither loaded nor loading,
    does not resolve at once: it issues another load of [key], marks
    [key] as loading and returns a pending promise. *)
Theorem C8_stale_closure_loads_again render w0 i key es :
  requests w0 !! i = Some {| src := key; path := Fetching; outcome := Pending |} ->
  key ∉ loadedResources render -> key ∉ loadingResources render ->
  let w := run (onload i w0) es in
  let w' := preloadImage render key w in
  isLoaded (hook w) key = true /\
  requests w' = requests w ++
    [{| src := key; path := Fetching; outcome := Pending |}] /\
  loads_issued key w' = S (loads_issued key w) /\
  isLoading (hook w') key = true.
Proof.
  intros Hi H1 H2. cbv zeta.
  destruct (onload_marks_loaded w0 i key Hi) as (Hin & _ & _).
  pose proof (loaded_forever key es _ Hin) as Hin'.
  split; [by apply has_true |].
  rewrite fetch_issues_load by done.
  rewrite preloadImage_fetch by done. cbn [requests hook].
  split; [done |]. split; [done |].
  apply has_true. cbn. apply elem_of_union_l. by apply elem_of_singleton.
Qed.

Lemma C8_stale_closure_loads_again_witness :
  let w0 := preloadImage initial "hero.png" start in
  let w := run (onload 0 w0) [] in
  let w' := preloadImage initial "hero.png" w in
  isLoaded (hook w) "hero.png" = true /\
  requests w' = requests w ++
    [{| src := "hero.png"; path := Fetching; outcome := Pending |}] /\
  loads_issued "hero.png" w' = S (loads_issued "hero.png" w) /\
  isLoading (hook w') "hero.png" = true.
Proof.
  apply (C8_stale_closure_loads_again initial
           (preloadImage initial "hero.png" start) 0 "hero.png" []).
  - reflexivity.
  - apply not_elem_of_empty.
  - apply not_elem_of_empty.
Defined.

Example reload_after_success :
  loads_issued "hero.png"
    (run start [Call initial "hero.png"; ImageLoaded 0; Call initial "hero.png"])
  = 2%nat.
Proof. reflexivity. Qed.

End PreloadFacts.

(** ** Theorems: useFocusManagement *)

Module FocusFacts.
Import FocusManagement.

Implicit Types (fe : list Element) (s : State) (ev : KeyboardEvent).

Lemma len_pos fe : fe <> [] -> 0 < len fe.
Proof. destruct fe; [done |]. unfold len. cbn [length]. lia. Qed.

Lemma at_index_first fe : at_index fe 0 = head fe.
Proof. unfold at_index. cbn. by rewrite head_lookup. Qed.

Lemma at_index_last fe : fe <> [] -> at_index fe (len fe - 1) = last fe.
Proof.
  intros Hne. pose proof (len_pos fe Hne) as Hpos. unfold at_index.
  rewrite bool_decide_eq_true_2 by lia. rewrite last_lookup. f_equal.
  unfold len. lia.
Qed.

Lemma same_element_refl e : same_element (Some e) (Some e) = true.
Proof. cbn. by apply bool_decide_eq_true_2. Qed.

Lemma same_element_true a b : same_element a b = true -> a = b.
Proof.
  destruct a, b; cbn; try discriminate.
  intros H. apply bool_decide_eq_true_1 in H. by subst.
Qed.

Lemma same_element_false a b : a <> b -> same_element a b = false.
Proof.
  intros Hne. destruct (same_element a b) eqn:E; [| done].
  by apply same_element_true in E.
Qed.

Lemma focusFirst_moves fe s :
  fe <> [] ->
  focusFirst fe s = {| activeElement := head fe; currentFocusIndex := 0 |}.
Proof.
  intros Hne. pose proof (len_pos fe Hne). unfold focusFirst, focusElement.
  rewrite bool_decide_eq_true_2 by lia. rewrite at_index_first.
  by destruct fe.
Qed.

Lemma focusLast_moves fe s :
  fe <> [] ->
  focusLast fe s =
  {| activeElement := last fe; currentFocusIndex := len fe - 1 |}.
Proof.
  intros Hne. pose proof (len_pos fe Hne). unfold focusLast, focusElement.
  rewrite bool_decide_eq_true_2 by lia. rewrite at_index_last by done.
  destruct (last fe) eqn:E; [done |]. by apply last_None in E.
Qed.

Example trap_wraps_forward :
  trapFocus [4; 7; 9]%nat (tab false) (init (Some 9%nat)) =
  (true, {| activeElement := Some 4%nat; currentFocusIndex := 0 |}).
Proof. reflexivity. Qed.

Example other_keys_ignored :
  trapFocus [4; 7; 9]%nat {| key := "Enter"; shiftKey := false |}
    (init (Some 9%nat)) = (false, init (Some 9%nat)).
Proof. reflexivity. Qed.

(** C6: for a non-empty list of focusable elements, Tab with the focus
    on the last element is prevented and the focus moves to the first;
    Shift+Tab with the focus on the first element is prevented and the
    focus moves to the last; every other Tab event is left alone: it
    is not prevented and the focus stays where it is. *)
Theorem C6_trap_wraps fe (at_last at_first elsewhere : State)
    (ev : KeyboardEvent) :
  fe <> [] ->
  activeElement at_last = last fe ->
  activeElement at_first = head fe ->
  key ev = "Tab" ->
  activeElement elsewhere <> (if shiftKey ev then head fe else last fe) ->
  trapFocus fe (tab false) at_last =
    (true, {| activeElement := head fe; currentFocusIndex := 0 |}) /\
  trapFocus fe (tab true) at_first =
    (true, {| activeElement := last fe; currentFocusIndex := len fe - 1 |}) /\
  trapFocus fe ev elsewhere = (false, elsewhere).
Proof.
  intros Hne Hat_last Hat_first Hkey Hother.
  pose proof (len_pos fe Hne) as Hpos.
  assert (Hlast : is_Some (last fe)).
  { destruct (last fe) eqn:E; [by eexists |]. by apply last_None in E. }
  assert (Hhead : is_Some (head fe)) by (by destruct fe; [| eexists]).
  destruct Hlast as [l Hl], Hhead as [h Hh].
  repeat split.
  - unfold trapFocus. cbn [key shiftKey tab negb].
    rewrite bool_decide_eq_true_2 by done. cbn [negb].
    rewrite bool_decide_eq_false_2 by lia.
    rewrite at_index_last, Hat_last, Hl, same_element_refl by done.
    by rewrite focusFirst_moves.
  - unfold trapFocus. cbn [key shiftKey tab negb].
    rewrite bool_decide_eq_true_2 by done. cbn [negb].
    rewrite bool_decide_eq_false_2 by lia.
    rewrite at_index_first, Hat_first, Hh, same_element_refl.
    by rewrite focusLast_moves.
  - unfold trapFocus.
    rewrite bool_decide_eq_true_2 by done. cbn [negb].
    rewrite bool_decide_eq_false_2 by lia.
    rewrite at_index_first, at_index_last by done.
    destruct (shiftKey ev); by rewrite same_element_false.
Qed.

Lemma C6_trap_wraps_witness :
  let fe := [4; 7; 9]%nat in
  trapFocus fe (tab false) (init (Some 9%nat)) =
    (true, {| activeElement := head fe; currentFocusIndex := 0 |}) /\
  trapFocus fe (tab true) (init (Some 4%nat)) =
    (true, {| activeElement := last fe; currentFocusIndex := len fe - 1 |}) /\
  trapFocus fe (tab true) (init (Some 7%nat)) = (false, init (Some 7%nat)).
Proof.
  apply (C6_trap_wraps [4; 7; 9]%nat (init (Some 9%nat)) (init (Some 4%nat))
           (init (Some 7%nat)) (tab true)).
  - discriminate.
  - reflexivity.
  - reflexivity.
  - reflexivity.
  - cbn. discriminate.
Defined.

End FocusFacts.

(** ** Theorems: useScreenReader *)

Module ScreenReaderFacts.
Import ScreenReader.

Implicit Types (s : State) (r : LiveRegion) (t : Timeout)
  (b : list LiveRegion) (ts : list Timeout).

Lemma in_removeChild n b r :
  In r (removeChild n b) <-> In r b /\ node r <> n.
Proof.
  unfold removeChild. rewrite List.filter_In, Bool.negb_true_iff.
  by rewrite Nat.eqb_neq.
Qed.

Lemma removeChild_snoc n b r :
  node r <> n -> removeChild n (b ++ [r]) = removeChild n b ++ [r].
Proof.
  intros Hne. unfold removeChild. rewrite List.filter_app. cbn.
  apply Nat.eqb_neq in Hne. by rewrite Hne.
Qed.

Lemma in_sweep ts : forall b r,
  In r (sweep ts b) <-> In r b /\ forall t, In t ts -> target t <> node r.
Proof.
  induction ts as [|t ts IH]; intros b r; cbn.
  - intuition.
  - unfold sweep in IH. rewrite IH, in_removeChild. split.
    + intros [[Hin Hne] Hall]. split; [done |].
      intros t' [<-|Hin']; [done | by apply Hall].
    + intros [Hin Hall]. repeat split; [done | |].
      * intros Heq. by apply (Hall t); [left |].
      * intros t' Hin'. apply Hall. by right.
Qed.

Lemma sweep_snoc ts : forall b r,
  (forall t, In t ts -> target t <> node r) ->
  sweep ts (b ++ [r]) = sweep ts b ++ [r].
Proof.
  induction ts as [|t ts IH]; intros b r Hall; [done |].
  cbn. rewrite removeChild_snoc.
  - apply IH. intros t' Hin. apply Hall. by right.
  - intros Heq. by apply (Hall t); [left |].
Qed.

Lemma body_run_to now s :
  body (run_to now s) = sweep (List.filter (due now) (timeouts s)) (body s).
Proof. reflexivity. Qed.

Lemma in_body_run_to now s r :
  In r (body (run_to now s)) <->
  In r (body s) /\
  forall t, In t (timeouts s) -> fireAt t <= now -> target t <> node r.
Proof.
  rewrite body_run_to, in_sweep. split; intros [Hin Hall]; (split; [done |]).
  - intros t Ht Hdue. apply Hall. apply List.filter_In. split; [done |].
    by apply bool_decide_eq_true_2.
  - intros t Ht. apply List.filter_In in Ht as [Ht Hdue].
    apply bool_decide_eq_true_1 in Hdue. by apply Hall.
Qed.

(** The invariant holds at the start and every operation keeps it. *)
Lemma well_formed_init : well_formed init.
Proof. by split. Qed.

Lemma well_formed_announce now m p s :
  well_formed s -> well_formed (announce now m p s).
Proof.
  intros [Hb Ht]. split; cbn.
  - apply Forall_app. split.
    + eapply Forall_impl; [exact Hb |]. cbn. lia.
    + repeat constructor.
  - apply Forall_app. split.
    + eapply Forall_impl; [exact Ht |]. cbn. lia.
    + repeat constructor.
Qed.

Lemma well_formed_run_to now s : well_formed s -> well_formed (run_to now s).
Proof.
  intros [Hb Ht]. split.
  - apply List.Forall_forall. intros r Hr. cbn [created run_to].
    apply in_body_run_to in Hr as [Hr _].
    by apply (proj1 (List.Forall_forall _ _) Hb).
  - apply List.Forall_forall. intros t Hin. cbn in Hin |- *.
    apply List.filter_In in Hin as [Hin _].
    by apply (proj1 (List.Forall_forall _ _) Ht).
Qed.

Lemma well_formed_handle s e : well_formed s -> well_formed (handle s e).
Proof.
  destruct e; cbn [handle]; intros H.
  - by apply well_formed_announce.
  - exact H.
  - by apply well_formed_run_to.
Qed.

Lemma announce_appends now m p s :
  body (announce now m p s) = body s ++ [region (created s) m p] /\
  timeouts (announce now m p s) =
    timeouts s ++ [{| fireAt := now + 1000; target := created s |}] /\
  created (announce now m p s) = S (created s).
Proof. done. Qed.

(** Until its own timeout is due a region stays on the page. *)
Lemma region_stays now s r :
  In r (body s) ->
  (forall t, In t (timeouts s) -> target t = node r -> now < fireAt t) ->
  In r (body (run_to now s)).
Proof.
  intros Hin Hlate. apply in_body_run_to. split; [done |].
  intros t Ht Hdue Heq. specialize (Hlate t Ht Heq). lia.
Qed.

(** Once a timeout for a node is due the node is off the page. *)
Lemma region_removed now s t :
  In t (timeouts s) -> fireAt t <= now ->
  Forall (fun r => node r <> target t) (body (run_to now s)).
Proof.
  intros Ht Hdue. apply List.Forall_forall. intros r Hr Heq.
  apply in_body_run_to in Hr as [_ Hall]. by apply (Hall t).
Qed.
(** One call of [announce] in a well-formed state: its region is new,
    stays for 1000 ms and is gone after that. *)
Lemma announce_channel now m p s :
  well_formed s ->
  let r := region (created s) m p in
  let s' := announce now m p s in
  body s' = body s ++ [r] /\
  Forall (fun r' => node r' <> node r) (body s) /\
  (forall later, later < now + 1000 -> In r (body (run_to later s'))) /\
  (forall later, now + 1000 <= later ->
     Forall (fun r' => node r' <> node r) (body (run_to later s'))).
Proof.
  intros [Hb Ht]. cbv zeta. split; [reflexivity |]. split; [| split].
  - eapply Forall_impl; [exact Hb |]. cbn. lia.
  - intros later Hlater. apply region_stays.
    + cbn. apply in_or_app. right. by left.
    + intros t Hin Heq. cbn in Hin, Heq.
      apply in_app_or in Hin as [Hin|[<-|[]]]; [| cbn; lia].
      apply (proj1 (List.Forall_forall _ _) Ht) in Hin. lia.
  - intros later Hlater.
    apply (region_removed later (announce now m p s)
             {| fireAt := now + 1000; target := created s |}); [| done].
    cbn. apply in_or_app. right. by left.
Qed.

(** A timeout that is not yet due, and whose node no earlier timeout
    holds, survives the event loop together with its region. *)
Lemma run_to_keeps_last now now' m p s :
  well_formed s -> now' < now + 1000 ->
  body (run_to now' (announce now m p s)) =
    body (run_to now' s) ++ [region (created s) m p] /\
  timeouts (run_to now' (announce now m p s)) =
    timeouts (run_to now' s) ++ [{| fireAt := now + 1000; target := created s |}] /\
  created (run_to now' (announce now m p s)) = S (created s).
Proof.
  intros [Hb Ht] Hlt.
  assert (Hdue : due now' {| fireAt := now + 1000; target := created s |} = false)
    by (apply bool_decide_eq_false_2; cbn; lia).
  split; [| split; [| reflexivity]].
  - rewrite !body_run_to.
    destruct (announce_appends now m p s) as (-> & -> & _).
    rewrite List.filter_app. cbn [List.filter]. rewrite Hdue, app_nil_r.
    apply sweep_snoc. intros t Hin. apply List.filter_In in Hin as [Hin _].
    apply (proj1 (List.Forall_forall _ _) Ht) in Hin. cbn. lia.
  - cbn [timeouts run_to].
    destruct (announce_appends now m p s) as (_ & -> & _).
    rewrite List.filter_app. cbn [List.filter]. by rewrite Hdue.
Qed.

Example identical_text_two_nodes :
  body (run init [Announce 0 "Saved" None; Announce 400 "Saved" None]) =
  [region 0 "Saved" None; region 1 "Saved" None].
Proof. reflexivity. Qed.

(** C7: every call of [announce] makes a region of its own, a node
    that was not on the page, carrying the message and the priority,
    appended to the body and removed 1000 ms later, not before; two
    calls less than 1000 ms apart, whatever their texts, leave two
    regions with different nodes on the page, each with its own text,
    and each is removed 1000 ms after its own call. *)
Theorem C7_dedicated_channels s (t1 t2 : Z) m1 m2 p1 p2 :
  well_formed s ->
  t1 <= t2 < t1 + 1000 ->
  let r1 := region (created s) m1 p1 in
  let r2 := region (S (created s)) m2 p2 in
  let s1 := announce t1 m1 p1 s in
  let s2 := announce t2 m2 p2 (run_to t2 s1) in
  (body s1 = body s ++ [r1] /\
   Forall (fun r => node r <> node r1) (body s) /\
   (forall now, now < t1 + 1000 -> In r1 (body (run_to now s1))) /\
   (forall now, t1 + 1000 <= now ->
      Forall (fun r => node r <> node r1) (body (run_to now s1)))) /\
  (body s2 = body (run_to t2 s) ++ [r1; r2] /\
   node r1 <> node r2 /\
   textContent r1 = m1 /\ textContent r2 = m2 /\
   (forall now, now < t1 + 1000 ->
      In r1 (body (run_to now s2)) /\ In r2 (body (run_to now s2))) /\
   (forall now, t1 + 1000 <= now ->
      Forall (fun r => node r <> node r1) (body (run_to now s2))) /\
   (forall now, now < t2 + 1000 -> In r2 (body (run_to now s2))) /\
   (forall now, t2 + 1000 <= now ->
      Forall (fun r => node r <> node r2) (body (run_to now s2)))).
Proof.
  intros Hwf Ht. cbv zeta. split; [by apply announce_channel |].
  destruct (run_to_keeps_last t1 t2 m1 p1 s Hwf (proj2 Ht)) as (Hbody & Htimers & Hcreated).
  assert (Hwf1 : well_formed (run_to t2 (announce t1 m1 p1 s)))
    by (by apply well_formed_run_to, well_formed_announce).
  destruct (announce_channel t2 m2 p2 _ Hwf1) as (Hb2 & Hfresh2 & Hstay2 & Hgone2).
  rewrite Hcreated in Hb2, Hstay2, Hgone2.
  assert (Hr1 : forall now, now < t1 + 1000 ->
    In (region (created s) m1 p1)
       (body (run_to now (announce t2 m2 p2 (run_to t2 (announce t1 m1 p1 s)))))).
  { intros now Hnow. apply region_stays.
    - rewrite Hb2, Hbody. apply in_or_app. left. apply in_or_app. right. by left.
    - intros t Hin Heq. cbn [timeouts announce] in Hin. rewrite Htimers in Hin.
      cbn in Heq.
      apply in_app_or in Hin as [Hin|[<-|[]]]; [| cbn in Heq; lia].
      apply in_app_or in Hin as [Hin|[<-|[]]]; [| cbn; lia].
      cbn in Hin. apply List.filter_In in Hin as [Hin _].
      apply (proj1 (List.Forall_forall _ _) (proj2 Hwf)) in Hin. lia. }
  split; [by rewrite Hb2, Hbody, <- app_assoc |].
  split; [cbn; lia |]. split; [reflexivity |]. split; [reflexivity |].
  split; [| split; [| split]].
  - intros now Hnow. split; [by apply Hr1 |]. apply Hstay2. lia.
  - intros now Hnow.
    apply (region_removed now _ {| fireAt := t1 + 1000; target := created s |});
      [| done].
    cbn [timeouts announce]. rewrite Htimers.
    apply in_or_app. left. apply in_or_app. right. by left.
  - exact Hstay2.
  - exact Hgone2.
Qed.

Lemma C7_dedicated_channels_witness :
  let s := init in
  let r1 := region (created s) "Saved" None in
  let r2 := region (S (created s)) "Saved" (Some assertive) in
  let s1 := announce 0 "Saved" None s in
  let s2 := announce 400 "Saved" (Some assertive) (run_to 400 s1) in
  (body s1 = body s ++ [r1] /\
   Forall (fun r => node r <> node r1) (body s) /\
   (forall now, now < 0 + 1000 -> In r1 (body (run_to now s1))) /\
   (forall now, 0 + 1000 <= now ->
      Forall (fun r => node r <> node r1) (body (run_to now s1)))) /\
  (body s2 = body (run_to 400 s) ++ [r1; r2] /\
   node r1 <> node r2 /\
   textContent r1 = "Saved" /\ textContent r2 = "Saved" /\
   (forall now, now < 0 + 1000 ->
      In r1 (body (run_to now s2)) /\ In r2 (body (run_to now s2))) /\
   (forall now, 0 + 1000 <= now ->
      Forall (fun r => node r <> node r1) (body (run_to now s2))) /\
   (forall now, now < 400 + 1000 -> In r2 (body (run_to now s2))) /\
   (forall now, 400 + 1000 <= now ->
      Forall (fun r => node r <> node r2) (body (run_to now s2)))).
Proof.
  apply (C7_dedicated_channels init 0 400 "Saved" "Saved" None (Some assertive)).
  - exact well_formed_init.
  - lia.
Defined.

(** The log of announcements under each operation of the hook. *)
Lemma announcements_handle s e :
  announcements (handle s e) =
  match e with
  | Announce _ m _ => announcements s ++ [m]
  | Clear => []
  | Elapse _ => announcements s
  end.
Proof. by destruct e. Qed.

Lemma announcements_run es : forall s,
  forallb (fun e => negb (is_clear e)) es = true ->
  announcements (run s es) = announcements s ++ messages es.
Proof.
  induction es as [|e es IH]; intros s Hes; cbn [run foldl].
  - by rewrite app_nil_r.
  - cbn in Hes. apply andb_prop in Hes as [He Hes].
    unfold run in IH. rewrite IH by done. rewrite announcements_handle.
    destruct e; cbn; try done. by rewrite <- app_assoc.
Qed.

Example log_outlives_the_regions :
  let s := run init [Announce 0 "Saved" None; Elapse 5000] in
  announcements s = ["Saved"] /\ body s = [].
Proof. by split. Qed.

(** C10: [announce] appends its message to [announcements]; the
    removal timeouts leave the list as it is; [clearAnnouncements]
    empties it; no other operation makes it shorter, so over a run
    without [clearAnnouncements] it grows by exactly the messages
    announced, one per call. *)
Theorem C10_announcements_only_grow s now message priority e es :
  forallb (fun e => negb (is_clear e)) es = true ->
  e <> Clear ->
  announcements (announce now message priority s) =
    announcements s ++ [message] /\
  announcements (run_to now s) = announcements s /\
  announcements (clearAnnouncements s) = [] /\
  (length (announcements s) <= length (announcements (handle s e)))%nat /\
  announcements (run s es) = announcements s ++ messages es /\
  length (announcements (run s es)) =
    (length (announcements s) + length (List.filter is_announce es))%nat.
Proof.
  intros Hes He. split; [reflexivity |]. split; [reflexivity |].
  split; [reflexivity |]. split; [| split].
  - rewrite announcements_handle. destruct e; [| done |]; [| lia].
    rewrite length_app. lia.
  - by apply announcements_run.
  - rewrite announcements_run by done. rewrite length_app. f_equal.
    clear. unfold messages.
    induction es as [|[] es IH]; cbn; [done | | done | done].
    by f_equal.
Qed.

Lemma C10_announcements_only_grow_witness :
  let s := announce 0 "Menu opened" None init in
  let es := [Announce 10 "Saved" None; Elapse 1010; Announce 1500 "Saved" None;
             Elapse 9000] in
  announcements (announce 20 "Closed" (Some assertive) s) =
    announcements s ++ ["Closed"] /\
  announcements (run_to 20 s) = announcements s /\
  announcements (clearAnnouncements s) = [] /\
  (length (announcements s) <= length (announcements (handle s (Elapse 2000))))%nat /\
  announcements (run s es) = announcements s ++ messages es /\
  length (announcements (run s es)) =
    (length (announcements s) + length (List.filter is_announce es))%nat.
Proof.
  apply (C10_announcements_only_grow (announce 0 "Menu opened" None init) 20
           "Closed" (Some assertive) (Elapse 2000)
           [Announce 10 "Saved" None; Elapse 1010; Announce 1500 "Saved" None;
            Elapse 9000]).
  - reflexivity.
  - discriminate.
Defined.

End ScreenReaderFacts.

(** ** More on useVirtualScroll *)

Module VirtualScrollMore.
Import VirtualScroll.




(** X1: with no items the range is empty: for every item height
    other than 0 and whatever the other inputs are, the end index is
    below the start index, no item is visible and the total height
    is 0. *)
Theorem empty_list_empty_range h c s o :
  h <> 0 ->
  let w := compute 0 h c s o in
  w_endIndex w < w_startIndex w /\
  visibleItems w <= 0 /\
  totalHeight w = 0.
Proof.
  intros _. cbv zeta. unfold compute, useVirtualScroll, getVisibleRange. cbn.
  repeat split; lia.
Qed.

Lemma empty_list_empty_range_witness :
  let w := compute 0 40 400 120 5 in
  w_endIndex w < w_startIndex w /\
  visibleItems w <= 0 /\
  totalHeight w = 0.
Proof.
  apply (empty_list_empty_range 40 400 120 5). discriminate.
Defined.







End VirtualScrollMore.

(** ** More on useThrottle *)

Module ThrottleMore.
Import Throttle ThrottleFacts.

Lemma spaced_snoc delay times : forall prev t,
  spaced delay prev times -> t - List.last times prev >= delay ->
  spaced delay prev (times ++ [t]).
Proof.
  induction times as [|x times IH]; intros prev t Hs Ht; cbn.
  - cbn in Ht. by split.
  - destruct Hs as [Hx Hs]. split; [done |]. apply IH; [done |].
    by rewrite DebounceFacts.last_cons_default in Ht.
Qed.

Section WithArgs.
Context {A : Type}.
Implicit Types (s : State A) (c : Z * A) (calls : list (Z * A)).

Lemma paced_init delay : paced delay (init (A := A)).
Proof. repeat split; done. Qed.

Lemma times_snoc (log : list (Z * A)) t a :
  (log ++ [(t, a)]).*1 = log.*1 ++ [t].
Proof. by rewrite fmap_app. Qed.

(** Running a due timeout keeps the refs and the log in step; a
    timeout left pending is not yet due. *)
Lemma paced_run_to delay now s :
  paced delay s ->
  paced delay (run_to now s) /\
  match timeoutRef (run_to now s) with
  | None => True
  | Some p => now < fireAt p
  end.
Proof.
  intros (Hsp & Hlast & Hpend). unfold run_to.
  destruct (timeoutRef s) as [p|] eqn:E.
  - case_bool_decide as Hdue.
    + split; [| done]. unfold fire, paced. cbn.
      rewrite times_snoc, List.last_last. repeat split.
      apply spaced_snoc; [done |]. rewrite Hlast, Hpend. lia.
    + rewrite E. split; [| lia]. unfold paced. by rewrite E.
  - rewrite E. split; [| done]. unfold paced. by rewrite E.
Qed.

(** A call that runs the callback at once finds no timeout pending. *)
Lemma leading_call_idle delay now s :
  paced delay s ->
  match timeoutRef s with None => True | Some p => now < fireAt p end ->
  now - lastCall s >= delay ->
  timeoutRef s = None.
Proof.
  intros (_ & _ & Hpend) Hearly Hlead.
  destruct (timeoutRef s) as [p|]; [lia | done].
Qed.

Lemma paced_step delay s c : paced delay s -> paced delay (step delay s c).
Proof.
  intros Hs. unfold step.
  destruct (paced_run_to delay c.1 s Hs) as [Hp Hearly].
  set (s' := run_to c.1 s) in *.
  destruct (decide (c.1 - lastCall s' >= delay)) as [Hlead|Hheld].
  - rewrite call_leading by done.
    rewrite (leading_call_idle delay c.1 s' Hp Hearly Hlead).
    destruct Hp as (Hsp & Hlast & _). unfold paced. cbn.
    rewrite times_snoc, List.last_last. repeat split.
    apply spaced_snoc; [done |]. by rewrite Hlast.
  - rewrite call_held by lia.
    destruct Hp as (Hsp & Hlast & _). by repeat split.
Qed.

Lemma paced_calls delay calls : forall s,
  paced delay s -> paced delay (foldl (step delay) s calls).
Proof.
  induction calls as [|c calls IH]; intros s Hs; [done |].
  cbn [foldl]. apply IH. by apply paced_step.
Qed.


(** On an ascending clock [lastCall] is never ahead of the clock. *)
Lemma lastCall_run_to now s n :
  lastCall s <= n -> n <= now -> lastCall (run_to now s) <= now.
Proof.
  intros Hn Hnow. unfold run_to. destruct (timeoutRef s) as [p|]; [| lia].
  case_bool_decide; cbn; lia.
Qed.

Lemma lastCall_step delay s c n :
  lastCall s <= n -> n <= c.1 -> lastCall (step delay s c) <= c.1.
Proof.
  intros Hn Hc. unfold step.
  pose proof (lastCall_run_to c.1 s n Hn Hc). unfold call.
  case_bool_decide; cbn; lia.
Qed.

Lemma lastCall_before_last delay calls : forall s n c,
  lastCall s <= n -> ascending n (calls ++ [c]) ->
  lastCall (foldl (step delay) s calls) <= c.1.
Proof.
  induction calls as [|x calls IH]; intros s n c Hn Hasc.
  - cbn in *. lia.
  - destruct Hasc as [Hx Hasc]. cbn [foldl].
    apply (IH _ x.1); [| done]. by apply (lastCall_step delay s x n).
Qed.

(** X6: when every timeout runs as soon as it is due, before any call
    made at or after that time, the last call of a stream is never
    dropped: on a clock that does not run backwards, once [delay] has
    passed since the last call, the last execution of the callback
    carries the arguments of that call, and it ran no later than
    [delay] after it. *)
Theorem last_call_executes delay calls c horizon :
  0 <= delay ->
  ascending 0 (calls ++ [c]) ->
  c.1 + delay <= horizon ->
  exists t,
    last (executions (simulate delay (calls ++ [c]) horizon)) = Some (t, c.2) /\
    c.1 <= t <= c.1 + delay.
Proof.
  intros Hdelay Hasc Hhor. unfold simulate. rewrite foldl_snoc.
  set (s0 := foldl (step delay) init calls).
  assert (Hp0 : paced delay s0) by apply paced_calls, paced_init.
  assert (Hl0 : lastCall s0 <= c.1)
    by (apply (lastCall_before_last delay calls init 0 c); [done | done]).
  unfold step.
  destruct (paced_run_to delay c.1 s0 Hp0) as [Hp Hearly].
  pose proof (lastCall_run_to c.1 s0 c.1 Hl0 ltac:(lia)) as Hl.
  set (s1 := run_to c.1 s0) in *.
  destruct (decide (c.1 - lastCall s1 >= delay)) as [Hlead|Hheld].
  - rewrite call_leading by done.
    rewrite (leading_call_idle delay c.1 s1 Hp Hearly Hlead).
    rewrite run_to_idle by done. cbn [executions].
    exists c.1. rewrite last_snoc. split; [by destruct c | lia].
  - rewrite call_held by lia.
    erewrite run_to_due; [| reflexivity | cbn; lia].
    cbn. exists (lastCall s1 + delay). rewrite last_snoc. split; [done | lia].
Qed.

End WithArgs.

(** A timeout that runs late is outside this rule: the call at 1025 is
    past the interval and runs the callback at once, without clearing
    the timeout that was due at 1020; when that timeout runs, at 1030,
    the callback runs again, with the arguments of the call at 1005. *)
Example late_timeout_runs_stale_call :
  let s := call 20 1025 "c" (call 20 1005 "b" (call 20 1000 "a" init)) in
  timeoutRef s = Some {| fireAt := 1020; heldArgs := "b" |} /\
  executions (fire 1030 {| fireAt := 1020; heldArgs := "b" |} s) =
    [(1000, "a"); (1025, "c"); (1030, "b")].
Proof. by split. Qed.

Lemma last_call_executes_witness :
  exists t,
    last (executions (simulate 16 ([(1000, "a"); (1004, "b")] ++ [(1009, "c")]) 1025))
      = Some (t, "c") /\
    1009 <= t <= 1009 + 16.
Proof.
  apply (last_call_executes 16 [(1000, "a"); (1004, "b")] (1009, "c") 1025).
  - lia.
  - cbn. lia.
  - cbn. lia.
Defined.

End ThrottleMore.

(** ** More on useDebounce *)

Module DebounceMore.
Import Debounce DebounceFacts.

Section WithValue.
Context {T : Type} `{EqDecision T}.
Implicit Types (s : State T) (c : Z * T) (changes : list (Z * T)).

Lemma settling_run_to delay due v now s :
  settling delay due v s -> settling delay due v (run_to now s).
Proof.
  intros [Hdeps [[Hh Hu]|[Hh Hu]]]; unfold run_to; rewrite Hh; [| by split; [| right]].
  case_bool_decide.
  - split; [done |]. right. cbn. by rewrite Hu.
  - by split; [| left].
Qed.

Lemma settling_rerenders delay due v (times : list Z) : forall s,
  settling delay due v s ->
  settling delay due v (foldl (step delay) s ((fun t => (t, v)) <$> times)).
Proof.
  induction times as [|t times IH]; intros s Hs; [done |].
  cbn [fmap list_fmap foldl]. apply IH. unfold step. cbn [fst snd].
  pose proof (settling_run_to delay due v t s Hs) as Hs'.
  destruct Hs' as [Hdeps Hrest].
  replace (render t v delay (run_to t s)) with (run_to t s); [by split |].
  pose proof (render_same_value t (run_to t s)) as Hsame.
  rewrite Hdeps in Hsame. cbn [fst snd] in Hsame. by rewrite Hsame.
Qed.

(** X7: re-renders that pass the same value and delay do not postpone
    the update: for a delay in the range of a timer delay
    ([0 <= delay < 2^31]), however many such re-renders there are and
    whenever they come, the value is copied exactly once, [delay] after
    the mount. *)
Theorem same_value_never_postpones delay t0 (v : T) (times : list Z) horizon :
  0 <= delay < 2 ^ 31 ->
  t0 + delay <= horizon ->
  updates (simulate delay t0 v ((fun t => (t, v)) <$> times) horizon) =
    [(t0 + delay, v)].
Proof.
  intros Hdelay Hh. unfold simulate.
  assert (Hm : settling delay (t0 + delay) v (mount t0 v delay)).
  { split; [done |]. left. unfold mount. cbn.
    by rewrite (timer_delay_small delay Hdelay). }
  pose proof (settling_rerenders delay _ v times _ Hm) as [_ [[Hp Hu]|[Hp Hu]]].
  - rewrite (run_to_fires _ _ _ Hp) by (cbn; lia). cbn. by rewrite Hu.
  - unfold run_to. by rewrite Hp.
Qed.

(** After the unmount no timeout is left: whatever was pending,
    nothing is copied later. *)
Lemma unmount_cancels s horizon :
  run_to horizon (unmount s) = unmount s /\
  updates (unmount s) = updates s /\
  debouncedValue (unmount s) = debouncedValue s.
Proof. done. Qed.

Lemma honest_mono vs vs' s : vs ⊆ vs' -> honest vs s -> honest vs' s.
Proof.
  intros Hsub [Hu Hh]. split.
  - eapply Forall_impl; [exact Hu |]. intros u Hin. by apply Hsub.
  - destruct (handler s); [by apply Hsub | done].
Qed.

Lemma honest_run_to vs now s : honest vs s -> honest vs (run_to now s).
Proof.
  intros [Hu Hh]. unfold run_to. destruct (handler s) as [t|] eqn:E.
  - case_bool_decide; [| by split; [| rewrite E]].
    split; [| done]. cbn. apply Forall_app. split; [done |].
    by repeat constructor.
  - by split; [| rewrite E].
Qed.

Lemma honest_step delay vs s c : honest vs s -> honest (vs ++ [c.2]) (step delay s c).
Proof.
  intros Hs. unfold step.
  pose proof (honest_run_to vs c.1 s Hs) as Hs'.
  apply (honest_mono vs (vs ++ [c.2])) in Hs'; [| set_solver].
  unfold render. case_decide; [done |].
  destruct Hs' as [Hu _]. split; [done |]. cbn. set_solver.
Qed.

Lemma honest_changes delay changes : forall vs s,
  honest vs s -> honest (vs ++ changes.*2) (foldl (step delay) s changes).
Proof.
  induction changes as [|c changes IH]; intros vs s Hs.
  - cbn. by rewrite app_nil_r.
  - cbn [foldl fmap list_fmap].
    replace (vs ++ c.2 :: changes.*2) with ((vs ++ [c.2]) ++ changes.*2)
      by (by rewrite <- app_assoc).
    apply IH. by apply honest_step.
Qed.

(** X8: the debounced value only ever takes values that the hook was
    rendered with: every update copies the initial value or the value
    of one of the changes. *)
Theorem updates_were_rendered delay t0 (v0 : T) changes horizon :
  Forall (fun u => u.2 ∈ rendered v0 changes)
    (updates (simulate delay t0 v0 changes horizon)) /\
  debouncedValue (simulate delay t0 v0 changes horizon) ∈ rendered v0 changes.
Proof.
  assert (Hm : honest [v0] (mount t0 v0 delay)).
  { split; [constructor | cbn; set_solver]. }
  pose proof (honest_changes delay changes _ _ Hm) as Hs.
  apply (honest_run_to _ horizon) in Hs. destruct Hs as [Hu _].
  split; [exact Hu |].
  unfold simulate. set (s := foldl _ _ _) in *.
  assert (Hd : debouncedValue s = v0 \/
               exists u, u ∈ updates s /\ debouncedValue s = u.2).
  { subst s. clear. induction changes as [|c changes IH] using rev_ind.
    - by left.
    - rewrite foldl_snoc. unfold step.
      set (s := foldl _ _ _) in *.
      assert (Hr : debouncedValue (run_to c.1 s) = v0 \/
        exists u, u ∈ updates (run_to c.1 s) /\ debouncedValue (run_to c.1 s) = u.2).
      { unfold run_to. destruct (handler s) as [t|]; [| done].
        case_bool_decide; [| done]. right. eexists. cbn.
        split; [apply elem_of_app; right; by left | done]. }
      unfold render. by case_decide. }
  assert (Hd' : debouncedValue (run_to horizon s) = v0 \/
    exists u, u ∈ updates (run_to horizon s) /\
              debouncedValue (run_to horizon s) = u.2).
  { unfold run_to. destruct (handler s) as [t|]; [| done].
    case_bool_decide; [| done]. right. eexists. cbn.
    split; [apply elem_of_app; right; by left | done]. }
  destruct Hd' as [->|(u & Hin & ->)]; [by left |].
  by apply (proj1 (Forall_forall _ _) Hu).
Qed.

End WithValue.

Lemma same_value_never_postpones_witness :
  updates (simulate 300 100 "query" ((fun t => (t, "query")) <$> [150; 390; 401]) 1000) =
    [(100 + 300, "query")].
Proof.
  apply (same_value_never_postpones 300 100 "query" [150; 390; 401] 1000); lia.
Defined.

End DebounceMore.

(** ** More on usePreload *)

Module PreloadMore.
Import Preload PreloadFacts.

Implicit Types (w : World) (render : HookState) (key : string)
  (srcs : list string) (es : list Event).

(** A request for another source issues no load of [key]. *)
Lemma other_source_no_load render key other w :
  other <> key ->
  loads_issued key (preloadImage render other w) = loads_issued key w.
Proof.
  intros Hne. unfold preloadImage.
  destruct (has _ _); [| destruct (has _ _)];
    rewrite loads_issued_snoc, loads_issued_hook; cbn; try lia.
  rewrite bool_decide_eq_false_2 by done. lia.
Qed.

(** X9: through the closure of one render that sees [key] neither
    loaded nor loading, [preloadImages] issues as many loads of [key] as
    the list has occurrences of it: once for a list without
    duplicates, never for a list without [key]. *)
Theorem loads_count_occurrences render key srcs : forall w,
  key ∉ loadedResources render -> key ∉ loadingResources render ->
  loads_issued key (preloadImages render srcs w) =
  (loads_issued key w + length (filter (fun src => src = key) srcs))%nat.
Proof.
  induction srcs as [|src srcs IH]; intros w H1 H2; cbn [preloadImages foldl].
  - cbn. lia.
  - unfold preloadImages in IH. rewrite IH by done.
    rewrite filter_cons. case_decide as Heq.
    + subst src. rewrite fetch_issues_load by done. cbn. lia.
    + rewrite other_source_no_load by done. lia.
Qed.

Lemma loads_count_occurrences_witness :
  loads_issued "a.png" (preloadImages initial ["a.png"; "b.png"; "a.png"; "c.png"] start) =
  (loads_issued "a.png" start +
   length (filter (fun src => src = "a.png") ["a.png"; "b.png"; "a.png"; "c.png"]))%nat.
Proof.
  apply (loads_count_occurrences initial "a.png"
           ["a.png"; "b.png"; "a.png"; "c.png"] start);
    apply not_elem_of_empty.
Defined.

(** X10: a request that finds its source loading never settles: its
    promise is still pending after any sequence of later requests,
    image events and polls, the success or the failure of the load it
    waits for included. *)
Theorem waiting_request_never_settles render key w es :
  key ∉ loadedResources render -> key ∈ loadingResources render ->
  outcome <$> (requests (run (preloadImage render key w) es) !! length (requests w))
    = Some Pending.
Proof.
  intros H1 H2.
  destruct (waiter_is_blind render key w H1 H2) as (r & Hr & _ & Hb).
  rewrite (blind_waiter_forever es _ _ r Hr Hb).
  destruct Hb as (_ & _ & _ & Ho). cbn. by rewrite Ho.
Qed.

Lemma waiting_request_never_settles_witness :
  let w1 := preloadImage initial "a.png" start in
  outcome <$> (requests (run (preloadImage (hook w1) "a.png" w1)
                           [Tick; ImageLoaded 0; Tick; Tick])
               !! length (requests w1))
    = Some Pending.
Proof.
  apply (waiting_request_never_settles
           (hook (preloadImage initial "a.png" start)) "a.png"
           (preloadImage initial "a.png" start)
           [Tick; ImageLoaded 0; Tick; Tick]).
  - apply not_elem_of_empty.
  - apply elem_of_union_l. by apply elem_of_singleton.
Defined.

(** X11: a failed load can be retried: after [img.onerror] the source
    is no longer loading, and a request through the closure of the next
    render starts a new load and marks the source as loading again. *)
Theorem failed_load_can_be_retried w i key :
  requests w !! i = Some {| src := key; path := Fetching; outcome := Pending |} ->
  key ∉ loadedResources (hook w) ->
  let w1 := onerror i w in
  let w2 := preloadImage (hook w1) key w1 in
  isLoading (hook w1) key = false /\
  requests w2 = requests w1 ++
    [{| src := key; path := Fetching; outcome := Pending |}] /\
  loads_issued key w2 = S (loads_issued key w1) /\
  isLoading (hook w2) key = true.
Proof.
  intros Hi Hnl. cbv zeta.
  destruct (onerror_rejects_owner w i key Hi) as (_ & Hload & Hsame & _).
  assert (Hnl' : key ∉ loadedResources (hook (onerror i w))) by (by rewrite Hsame).
  split; [by apply has_false |].
  rewrite fetch_issues_load by done.
  rewrite preloadImage_fetch by done. cbn [requests hook].
  split; [done |]. split; [done |].
  apply has_true. cbn. apply elem_of_union_l. by apply elem_of_singleton.
Qed.

Lemma failed_load_can_be_retried_witness :
  let w := preloadImage initial "a.png" start in
  let w1 := onerror 0 w in
  let w2 := preloadImage (hook w1) "a.png" w1 in
  isLoading (hook w1) "a.png" = false /\
  requests w2 = requests w1 ++
    [{| src := "a.png"; path := Fetching; outcome := Pending |}] /\
  loads_issued "a.png" w2 = S (loads_issued "a.png" w1) /\
  isLoading (hook w2) "a.png" = true.
Proof.
  apply (failed_load_can_be_retried (preloadImage initial "a.png" start) 0 "a.png").
  - reflexivity.
  - apply not_elem_of_empty.
Defined.

Lemma hit_keeps_hook render key w :
  key ∈ loadedResources render ->
  hook (preloadImage render key w) = hook w /\
  (forall k, loads_issued k (preloadImage render key w) = loads_issued k w).
Proof.
  intros Hin. rewrite preloadImage_hit by done. split; [done |].
  intros k. rewrite loads_issued_snoc. cbn. unfold loads_issued. cbn. lia.
Qed.

(** X12: [preloadImages] of sources that the render sees loaded is
    served from the cache: every promise is resolved at once, no load
    is issued for any source and the state of the hook is left as it
    is. *)
Theorem loaded_sources_are_hits render srcs : forall w,
  Forall (fun src => src ∈ loadedResources render) srcs ->
  let w' := preloadImages render srcs w in
  requests w' = requests w ++
    ((fun src => {| src := src; path := CacheHit; outcome := Resolved |}) <$> srcs) /\
  hook w' = hook w /\
  forall k, loads_issued k w' = loads_issued k w.
Proof.
  induction srcs as [|src srcs IH]; intros w Hall; cbv zeta.
  - cbn. by rewrite app_nil_r.
  - inversion Hall as [|? ? Hsrc Hrest]; subst.
    cbn [preloadImages foldl fmap list_fmap].
    destruct (IH (preloadImage render src w) Hrest) as (Hreq & Hhook & Hloads).
    unfold preloadImages in Hreq, Hhook, Hloads.
    destruct (hit_keeps_hook render src w Hsrc) as [Hh Hl].
    rewrite Hreq, Hhook, Hh. split; [| split; [done |]].
    + rewrite preloadImage_hit by done. cbn [requests].
      by rewrite <- app_assoc.
    + intros k. by rewrite Hloads, Hl.
Qed.

Lemma loaded_sources_are_hits_witness :
  let render := {| loadedResources := {["a.png"; "b.png"]}; loadingResources := ∅ |} in
  let w' := preloadImages render ["b.png"; "a.png"; "b.png"] start in
  requests w' = requests start ++
    ((fun src => {| src := src; path := CacheHit; outcome := Resolved |})
       <$> ["b.png"; "a.png"; "b.png"]) /\
  hook w' = hook start /\
  forall k, loads_issued k w' = loads_issued k start.
Proof.
  apply (loaded_sources_are_hits
           {| loadedResources := {["a.png"; "b.png"]}; loadingResources := ∅ |}
           ["b.png"; "a.png"; "b.png"] start).
  repeat constructor; cbn; set_solver.
Defined.

End PreloadMore.

(** ** Theorems: useLazyLoad *)

Module LazyLoadFacts.
Import LazyLoad.

Implicit Types (s : State) (e : Event) (es : list Event).





Lemma loaded_handle s e :
  isVisible s = true /\ hasLoaded s = true ->
  isVisible (handle s e) = true /\ hasLoaded (handle s e) = true.
Proof.
  intros [Hv Hl]. destruct e as [i|el|el]; cbn [handle].
  - by destruct (_ && _).
  - by case_bool_decide.
  - done.
Qed.

Lemma agree_handle s e :
  isVisible s = hasLoaded s -> isVisible (handle s e) = hasLoaded (handle s e).
Proof.
  intros H. destruct e as [i|el|el]; cbn [handle].
  - by destruct (_ && _).
  - by case_bool_decide.
  - done.
Qed.

(** X14: visibility is one-way: whether or not the ref holds an
    element, [isVisible] and [hasLoaded] are always equal, and once
    they are true no entry and no re-render makes them false again. *)
Theorem visible_is_one_way element es es' :
  isVisible (run (mount element) es) = hasLoaded (run (mount element) es) /\
  (isVisible (run (mount element) es) = true ->
   isVisible (run (mount element) (es ++ es')) = true).
Proof.
  split.
  - assert (H : forall s, isVisible s = hasLoaded s ->
                          isVisible (run s es) = hasLoaded (run s es)).
    { induction es as [|e es IH]; intros s Hs; [done |].
      cbn [run foldl]. apply IH. by apply agree_handle. }
    by apply H.
  - unfold run. rewrite foldl_app. set (s := foldl handle _ es). intros Hv.
    assert (Hl : hasLoaded s = true).
    { assert (H : forall s0, isVisible s0 = hasLoaded s0 ->
                             isVisible (run s0 es) = hasLoaded (run s0 es)).
      { clear. induction es as [|e es IH]; intros s0 Hs; [done |].
        cbn [run foldl]. apply IH. by apply agree_handle. }
      rewrite <- Hv. symmetry. by apply H. }
    assert (H : forall s0, isVisible s0 = true /\ hasLoaded s0 = true ->
                           isVisible (foldl handle s0 es') = true).
    { clear. induction es' as [|e es' IH]; intros s0 Hs; [by destruct Hs |].
      cbn [foldl]. apply IH. by apply loaded_handle. }
    by apply H.
Qed.

End LazyLoadFacts.

(** ** Theorems: usePerformance *)

Module PerformanceFacts.
Import Performance.

Implicit Types (s : State) (times : list Z).

(** Frames before the second is over are only counted. *)
Lemma frames_counted times : forall s,
  Forall (fun now => now - lastTime s < 1000) times ->
  frames s times =
  {| frameCount := frameCount s + Z.of_nat (length times);
     lastTime := lastTime s;
     fps := fps s |}.
Proof.
  induction times as [|now times IH]; intros s Hall.
  - cbn. destruct s. cbn. f_equal. lia.
  - inversion Hall as [|? ? Hnow Hrest]; subst. cbn [frames foldl].
    unfold frames in IH. unfold measureFPS at 2.
    rewrite bool_decide_eq_false_2 by lia. rewrite IH by done. cbn.
    f_equal. lia.
Qed.

(** [round_div] is the nearest integer. *)
Lemma round_div_nearest a b :
  0 < b -> 2 * a - b < 2 * b * round_div a b <= 2 * a + b.
Proof.
  intros Hb. unfold round_div.
  pose proof (Z.div_mod (2 * a + b) (2 * b) ltac:(lia)).
  pose proof (Z.mod_pos_bound (2 * a + b) (2 * b) ltac:(lia)). lia.
Qed.

(** X15: the sample that the frame counter publishes: after the frames
    of a period, the first frame at least 1000 ms after the start of
    the period publishes the number of frames counted, this one
    included, times 1000 over the length of the period, rounded to the
    nearest integer, and starts the next period; the frames before it
    publish nothing. *)
Theorem fps_sample s times now :
  Forall (fun t => t - lastTime s < 1000) times ->
  now - lastTime s >= 1000 ->
  let n := frameCount s + Z.of_nat (length times) + 1 in
  let elapsed := now - lastTime s in
  fps (frames s times) = fps s /\
  frames s (times ++ [now]) =
    {| frameCount := 0; lastTime := now; fps := round_div (n * 1000) elapsed |} /\
  2 * (n * 1000) - elapsed < 2 * elapsed * fps (frames s (times ++ [now]))
    <= 2 * (n * 1000) + elapsed.
Proof.
  intros Hall Hnow. cbv zeta.
  pose proof (frames_counted times s Hall) as Hc.
  assert (Hf : frames s (times ++ [now]) =
    {| frameCount := 0; lastTime := now;
       fps := round_div ((frameCount s + Z.of_nat (length times) + 1) * 1000)
                (now - lastTime s) |}).
  { unfold frames in *. rewrite foldl_snoc, Hc. unfold measureFPS. cbn.
    by rewrite bool_decide_eq_true_2. }
  split; [by rewrite Hc |]. split; [exact Hf |].
  rewrite Hf. cbn [fps]. apply round_div_nearest. lia.
Qed.

Lemma fps_sample_witness :
  let s := mount 5000 in
  let times := [5016; 5033; 5050; 5983] in
  let n := frameCount s + Z.of_nat (length times) + 1 in
  let elapsed := 6000 - lastTime s in
  fps (frames s times) = fps s /\
  frames s (times ++ [6000]) =
    {| frameCount := 0; lastTime := 6000; fps := round_div (n * 1000) elapsed |} /\
  2 * (n * 1000) - elapsed < 2 * elapsed * fps (frames s (times ++ [6000]))
    <= 2 * (n * 1000) + elapsed.
Proof.
  apply (fps_sample (mount 5000) [5016; 5033; 5050; 5983] 6000).
  - repeat constructor; cbn; lia.
  - cbn. lia.
Defined.

End PerformanceFacts.

(** ** More on useFocusManagement *)

Module FocusMore.
Import FocusManagement FocusFacts.

Implicit Types (fe : list Element) (s : State).

(** X16: on an empty list of focusable elements the four focus moves
    do nothing, and the trap stops every Tab where it is. *)
Theorem empty_list_moves_nothing s shift :
  focusFirst [] s = s /\ focusLast [] s = s /\
  focusNext [] s = s /\ focusPrevious [] s = s /\
  trapFocus [] (tab shift) s = (true, s).
Proof.
  assert (Hprev : focusPrevious [] s = s).
  { unfold focusPrevious, focusPreviousFrom, focusElement.
    rewrite bool_decide_eq_false_2; [done |].
    change (len []) with 0. case_bool_decide; lia. }
  by repeat split.
Qed.

Lemma at_index_in_range fe j :
  0 <= j < len fe -> is_Some (at_index fe j).
Proof.
  intros Hj. unfold at_index. rewrite bool_decide_eq_true_2 by lia.
  apply lookup_lt_is_Some. unfold len in Hj. lia.
Qed.

Lemma focusElement_in_range fe j s :
  0 <= j < len fe ->
  focusElement fe j s =
  {| activeElement := at_index fe j; currentFocusIndex := j |}.
Proof.
  intros Hj. unfold focusElement. rewrite bool_decide_eq_true_2 by lia.
  by destruct (at_index_in_range fe j Hj) as [e ->].
Qed.

Lemma focusNextFrom_index (i : Z) fe s :
  fe <> [] -> -1 <= i ->
  focusNextFrom i fe s =
  {| activeElement := at_index fe ((i + 1) mod len fe);
     currentFocusIndex := (i + 1) mod len fe |}.
Proof.
  intros Hne Hi. pose proof (len_pos fe Hne) as Hpos. unfold focusNextFrom.
  rewrite bool_decide_eq_false_2 by lia.
  rewrite Z.rem_mod_nonneg by lia.
  apply focusElement_in_range. apply Z.mod_pos_bound. lia.
Qed.

Lemma focusNext_index fe s :
  fe <> [] -> -1 <= currentFocusIndex s ->
  focusNext fe s =
  {| activeElement := at_index fe ((currentFocusIndex s + 1) mod len fe);
     currentFocusIndex := (currentFocusIndex s + 1) mod len fe |}.
Proof. intros Hne Hi. by apply focusNextFrom_index. Qed.

(** X17: [focusNext] wraps around: on a non-empty list, from any
    tracked index (-1, no focus, included) it moves the focus to the
    element at the next index modulo the length, which is an element
    of the list. *)
Theorem focusNext_wraps fe s :
  fe <> [] -> -1 <= currentFocusIndex s ->
  let next := (currentFocusIndex s + 1) mod len fe in
  0 <= next < len fe /\
  currentFocusIndex (focusNext fe s) = next /\
  activeElement (focusNext fe s) = at_index fe next /\
  is_Some (activeElement (focusNext fe s)).
Proof.
  intros Hne Hi. cbv zeta. pose proof (len_pos fe Hne) as Hpos.
  assert (Hn : 0 <= (currentFocusIndex s + 1) mod len fe < len fe)
    by (apply Z.mod_pos_bound; lia).
  rewrite focusNext_index by done. cbn.
  repeat split; try lia. by apply at_index_in_range.
Qed.

Lemma focusNext_wraps_witness :
  let fe := [4; 7; 9]%nat in
  let s := {| activeElement := Some 9%nat; currentFocusIndex := 2 |} in
  let next := (currentFocusIndex s + 1) mod len fe in
  0 <= next < len fe /\
  currentFocusIndex (focusNext fe s) = next /\
  activeElement (focusNext fe s) = at_index fe next /\
  is_Some (activeElement (focusNext fe s)).
Proof.
  apply (focusNext_wraps [4; 7; 9]%nat
           {| activeElement := Some 9%nat; currentFocusIndex := 2 |}).
  - discriminate.
  - cbn. lia.
Defined.

Lemma focusPreviousFrom_index (i : Z) fe s :
  fe <> [] -> i < len fe ->
  focusPreviousFrom i fe s =
  let prev := if bool_decide (i <= 0) then len fe - 1 else i - 1 in
  {| activeElement := at_index fe prev; currentFocusIndex := prev |}.
Proof.
  intros Hne Hi. pose proof (len_pos fe Hne) as Hpos. unfold focusPreviousFrom.
  cbv zeta. apply focusElement_in_range. case_bool_decide; lia.
Qed.

Lemma focusPrevious_index fe s :
  fe <> [] -> currentFocusIndex s < len fe ->
  focusPrevious fe s =
  let prev := if bool_decide (currentFocusIndex s <= 0)
              then len fe - 1 else currentFocusIndex s - 1 in
  {| activeElement := at_index fe prev; currentFocusIndex := prev |}.
Proof. intros Hne Hi. by apply focusPreviousFrom_index. Qed.

(** X18: on a non-empty list, with the tracked index inside the list:
    when a re-render comes between the two moves, so that the second is
    called through the closure of the render that follows the first,
    [focusNext] and [focusPrevious] undo one another, in either order;
    called through the closures of one render, the second move starts
    from the captured index again, so next-then-previous ends one index
    before the start and previous-then-next one after it, modulo the
    length. *)
Theorem next_previous_round_trip fe s :
  fe <> [] -> 0 <= currentFocusIndex s < len fe ->
  let i := currentFocusIndex s in
  (focusPrevious fe (focusNext fe s) =
     {| activeElement := at_index fe i; currentFocusIndex := i |} /\
   focusNext fe (focusPrevious fe s) =
     {| activeElement := at_index fe i; currentFocusIndex := i |}) /\
  (currentFocusIndex (focusPreviousFrom i fe (focusNextFrom i fe s)) =
     (if bool_decide (i <= 0) then len fe - 1 else i - 1) /\
   currentFocusIndex (focusNextFrom i fe (focusPreviousFrom i fe s)) =
     (i + 1) mod len fe).
Proof.
  intros Hne Hi. pose proof (len_pos fe Hne) as Hpos. cbv zeta.
  set (i := currentFocusIndex s) in *. split; [split |split].
  - rewrite focusNext_index by (done || lia). fold i.
    rewrite focusPrevious_index; [| done | cbn; apply Z.mod_pos_bound; lia].
    cbn. destruct (decide (i = len fe - 1)) as [->|Hlast].
    + replace (len fe - 1 + 1) with (1 * len fe) by lia.
      rewrite Z.mod_mul by lia. by rewrite bool_decide_eq_true_2.
    + rewrite Z.mod_small by lia. rewrite bool_decide_eq_false_2 by lia.
      by replace (i + 1 - 1) with i by lia.
  - rewrite focusPrevious_index by (done || lia). fold i. cbv zeta.
    rewrite focusNext_index; [| done | cbn; case_bool_decide; lia].
    cbn. case_bool_decide.
    + assert (i = 0) as -> by lia.
      replace (len fe - 1 + 1) with (1 * len fe) by lia.
      by rewrite Z.mod_mul by lia.
    + replace (i - 1 + 1) with i by lia. by rewrite Z.mod_small by lia.
  - by rewrite focusPreviousFrom_index by (done || lia).
  - by rewrite focusNextFrom_index by (done || lia).
Qed.

Lemma next_previous_round_trip_witness :
  let fe := [4; 7; 9]%nat in
  let s := {| activeElement := Some 9%nat; currentFocusIndex := 2 |} in
  let i := currentFocusIndex s in
  (focusPrevious fe (focusNext fe s) =
     {| activeElement := at_index fe i; currentFocusIndex := i |} /\
   focusNext fe (focusPrevious fe s) =
     {| activeElement := at_index fe i; currentFocusIndex := i |}) /\
  (currentFocusIndex (focusPreviousFrom i fe (focusNextFrom i fe s)) =
     (if bool_decide (i <= 0) then len fe - 1 else i - 1) /\
   currentFocusIndex (focusNextFrom i fe (focusPreviousFrom i fe s)) =
     (i + 1) mod len fe).
Proof.
  apply (next_previous_round_trip [4; 7; 9]%nat
           {| activeElement := Some 9%nat; currentFocusIndex := 2 |}).
  - discriminate.
  - unfold len. cbn. lia.
Defined.

Lemma focusNext_iter fe (n : nat) : forall s,
  fe <> [] -> -1 <= currentFocusIndex s ->
  currentFocusIndex (Nat.iter n (focusNext fe) s) =
  if bool_decide (n = 0%nat) then currentFocusIndex s
  else (currentFocusIndex s + Z.of_nat n) mod len fe.
Proof.
  induction n as [|n IH]; intros s Hne Hi; [done |].
  pose proof (len_pos fe Hne) as Hpos.
  rewrite bool_decide_eq_false_2 by done.
  rewrite Nat.iter_succ_r. rewrite IH; [| done |].
  - rewrite focusNext_index by done. cbn. case_bool_decide.
    + subst n. f_equal.
    + rewrite Zplus_mod_idemp_l. f_equal. lia.
  - rewrite focusNext_index by done. cbn.
    pose proof (Z.mod_pos_bound (currentFocusIndex s + 1) (len fe) Hpos). lia.
Qed.

Lemma focusNextFrom_iter (i : Z) fe (n : nat) s :
  fe <> [] -> -1 <= i -> n <> 0%nat ->
  currentFocusIndex (Nat.iter n (focusNextFrom i fe) s) = (i + 1) mod len fe.
Proof.
  intros Hne Hi Hn. destruct n as [|n]; [done |].
  rewrite Nat.iter_succ. by rewrite focusNextFrom_index.
Qed.

(** X19: on a non-empty list, with the tracked index inside the list:
    when a re-render follows every move, so that each [focusNext] is
    called through the closure of the render that follows the previous
    one, as many moves as the list has elements bring the index back
    to where it was; called through the closure of one render, the
    same number of moves ends where a single move does, one index
    after the start modulo the length. *)
Theorem focusNext_full_cycle fe s :
  fe <> [] -> 0 <= currentFocusIndex s < len fe ->
  currentFocusIndex (Nat.iter (length fe) (focusNext fe) s) = currentFocusIndex s /\
  currentFocusIndex
    (Nat.iter (length fe) (focusNextFrom (currentFocusIndex s) fe) s) =
    (currentFocusIndex s + 1) mod len fe.
Proof.
  intros Hne Hi. pose proof (len_pos fe Hne) as Hpos. split.
  - rewrite focusNext_iter by (done || lia).
    rewrite bool_decide_eq_false_2 by (destruct fe; done).
    fold (len fe). replace (currentFocusIndex s + len fe)
      with (currentFocusIndex s + 1 * len fe) by lia.
    rewrite Z.mod_add by lia. apply Z.mod_small. lia.
  - apply focusNextFrom_iter; [done | lia | by destruct fe].
Qed.

Lemma focusNext_full_cycle_witness :
  let fe := [4; 7; 9]%nat in
  let s := {| activeElement := Some 7%nat; currentFocusIndex := 1 |} in
  currentFocusIndex (Nat.iter (length fe) (focusNext fe) s) = currentFocusIndex s /\
  currentFocusIndex
    (Nat.iter (length fe) (focusNextFrom (currentFocusIndex s) fe) s) =
    (currentFocusIndex s + 1) mod len fe.
Proof.
  apply (focusNext_full_cycle [4; 7; 9]%nat
           {| activeElement := Some 7%nat; currentFocusIndex := 1 |}).
  - discriminate.
  - unfold len. cbn. lia.
Defined.

Example one_closure_three_moves :
  currentFocusIndex
    (Nat.iter 3 (focusNextFrom 1 [4; 7; 9]%nat)
       {| activeElement := Some 7%nat; currentFocusIndex := 1 |}) = 2.
Proof. reflexivity. Qed.

Lemma at_index_elem fe j e : at_index fe j = Some e -> e ∈ fe.
Proof.
  unfold at_index. case_bool_decide; [| done].
  intros Hl. by eapply list_elem_of_lookup_2.
Qed.

Lemma focusElement_inside fe j s :
  focusElement fe j s = s \/
  exists e, activeElement (focusElement fe j s) = Some e /\ e ∈ fe.
Proof.
  unfold focusElement. case_bool_decide; [| by left].
  destruct (at_index fe j) as [e|] eqn:E; [| by left].
  right. exists e. split; [done |]. by eapply at_index_elem.
Qed.

(** X20: the trap keeps the focus inside: whatever the key event, the
    list and the state, [trapFocus] either leaves the focus where it is
    or prevents the default action and moves the focus to an element
    of the list; it never moves the focus without preventing the
    default action. *)
Theorem trap_moves_only_inside fe ev s :
  let result := trapFocus fe ev s in
  (result.1 = false -> result.2 = s) /\
  (result.2 = s \/
   result.1 = true /\ exists e, activeElement result.2 = Some e /\ e ∈ fe).
Proof.
  cbv zeta. unfold trapFocus.
  destruct (negb _); [by split; [| left] |].
  case_bool_decide; [by split; [| left] |].
  destruct (shiftKey ev).
  - destruct (same_element _ _); [| by split; [| left]].
    split; [done |]. cbn [fst snd]. unfold focusLast.
    destruct (focusElement_inside fe (len fe - 1) s) as [->|?]; [by left |].
    by right.
  - destruct (same_element _ _); [| by split; [| left]].
    split; [done |]. cbn [fst snd]. unfold focusFirst.
    destruct (focusElement_inside fe 0 s) as [->|?]; [by left |].
    by right.
Qed.

End FocusMore.

(** ** More on useScreenReader *)

Module ScreenReaderMore.
Import ScreenReader ScreenReaderFacts.

Implicit Types (s : State) (e : Event) (es : list Event).

Lemma tracked_handle limit s e :
  tracked limit s -> settled_by limit e -> tracked limit (handle s e).
Proof.
  intros [Hb Ht] He. destruct e as [now m p| |now]; cbn [handle].
  - split.
    + intros r Hr. cbn in Hr. apply in_app_or in Hr as [Hr|[<-|[]]].
      * destruct (Hb r Hr) as (t & Hin & Heq). exists t. split; [| done].
        cbn. apply in_or_app. by left.
      * eexists. split; [cbn; apply in_or_app; right; by left | done].
    + intros t Hin. cbn in Hin. apply in_app_or in Hin as [Hin|[<-|[]]].
      * by apply Ht.
      * exact He.
  - by split.
  - split.
    + intros r Hr. apply in_body_run_to in Hr as [Hr Hlate].
      destruct (Hb r Hr) as (t & Hin & Heq). exists t. split; [| done].
      cbn. apply List.filter_In. split; [done |].
      apply negb_true_iff, bool_decide_eq_false_2.
      intros Hdue. by apply (Hlate t Hin Hdue).
    + intros t Hin. cbn in Hin. apply List.filter_In in Hin as [Hin _].
      by apply Ht.
Qed.

Lemma tracked_run limit es : forall s,
  tracked limit s -> Forall (settled_by limit) es -> tracked limit (run s es).
Proof.
  induction es as [|e es IH]; intros s Hs Hes; [done |].
  inversion Hes as [|? ? He Hrest]; subst. cbn [run foldl].
  apply IH; [| done]. by apply tracked_handle.
Qed.

(** X21: the live regions do not pile up: 1000 ms after the last
    announcement every region that [announce] has appended since the
    mount is off the page again, and no timeout is left. *)
Theorem regions_all_removed es limit :
  Forall (settled_by limit) es ->
  body (run_to limit (run init es)) = [] /\
  timeouts (run_to limit (run init es)) = [].
Proof.
  intros Hes.
  assert (Hi : tracked limit init) by (split; intros ? []).
  destruct (tracked_run limit es init Hi Hes) as [Hb Ht].
  set (s := run init es) in *. split.
  - destruct (body (run_to limit s)) as [|r rest] eqn:E; [done |].
    assert (Hr : In r (body (run_to limit s))) by (rewrite E; by left).
    apply in_body_run_to in Hr as [Hr Hlate].
    destruct (Hb r Hr) as (t & Hin & Heq).
    by destruct (Hlate t Hin (Ht t Hin)).
  - cbn. destruct (List.filter _ _) as [|t rest] eqn:E; [done |].
    assert (Hin : In t (List.filter (fun t => negb (due limit t)) (timeouts s)))
      by (rewrite E; by left).
    apply List.filter_In in Hin as [Hin Hnot].
    apply negb_true_iff, bool_decide_eq_false_1 in Hnot.
    by destruct (Hnot (Ht t Hin)).
Qed.

Lemma regions_all_removed_witness :
  body (run_to 2500 (run init [Announce 0 "Opened" (Some assertive); Elapse 400;
                               Announce 1500 "Closed" None; Clear])) = [] /\
  timeouts (run_to 2500 (run init [Announce 0 "Opened" (Some assertive); Elapse 400;
                                   Announce 1500 "Closed" None; Clear])) = [].
Proof.
  apply (regions_all_removed
           [Announce 0 "Opened" (Some assertive); Elapse 400;
            Announce 1500 "Closed" None; Clear] 2500).
  repeat constructor; cbn; lia.
Defined.

End ScreenReaderMore.

(** ** Theorems: useColorContrast *)

Module ColorContrastFacts.
Import ColorContrast.

Lemma hex_digit_range c d : hex_digit c = Some d -> 0 <= d <= 15.
Proof.
  unfold hex_digit. repeat case_bool_decide; intros [= <-]; lia.
Qed.

Lemma hex_pair_range hi lo n : hex_pair hi lo = Some n -> 0 <= n <= 255.
Proof.
  unfold hex_pair.
  destruct (hex_digit hi) as [h|] eqn:Eh; [| done].
  destruct (hex_digit lo) as [l|] eqn:El; [| done].
  intros [= <-].
  pose proof (hex_digit_range _ _ Eh). pose proof (hex_digit_range _ _ El). lia.
Qed.

Example parses_with_and_without_hash :
  hexToRgb "#1a2B3c" = Some {| r := 26; g := 43; b := 60 |} /\
  hexToRgb "1A2b3C" = Some {| r := 26; g := 43; b := 60 |}.
Proof. by split. Qed.

Example shorthand_is_rejected : hexToRgb "#fff" = None.
Proof. reflexivity. Qed.

(** X22: a colour that [hexToRgb] accepts has, after the optional [#],
    exactly six characters, and its three components lie between 0
    and 255. *)
Theorem hexToRgb_components hex rgb :
  hexToRgb hex = Some rgb ->
  String.length (strip_hash hex) = 6%nat /\
  0 <= r rgb <= 255 /\ 0 <= g rgb <= 255 /\ 0 <= b rgb <= 255.
Proof.
  unfold hexToRgb. intros Hparse.
  assert (Hlen : String.length (strip_hash hex) =
                 length (String.list_ascii_of_string (strip_hash hex))).
  { generalize (strip_hash hex). intros x.
    induction x as [|c x IH]; cbn; [done | by rewrite IH]. }
  destruct (String.list_ascii_of_string (strip_hash hex))
    as [|r1 [|r2 [|g1 [|g2 [|b1 [|b2 [|? ?]]]]]]]; try done.
  destruct (hex_pair r1 r2) as [rv|] eqn:Er; [| done].
  destruct (hex_pair g1 g2) as [gv|] eqn:Eg; [| done].
  destruct (hex_pair b1 b2) as [bv|] eqn:Eb; [| done].
  injection Hparse as <-. cbn [r g b]. split; [done |].
  split; [exact (hex_pair_range _ _ _ Er) |].
  split; [exact (hex_pair_range _ _ _ Eg) | exact (hex_pair_range _ _ _ Eb)].
Qed.

Lemma hexToRgb_components_witness :
  String.length (strip_hash "#1a2B3c") = 6%nat /\
  0 <= r {| r := 26; g := 43; b := 60 |} <= 255 /\
  0 <= g {| r := 26; g := 43; b := 60 |} <= 255 /\
  0 <= b {| r := 26; g := 43; b := 60 |} <= 255.
Proof.
  apply (hexToRgb_components "#1a2B3c" {| r := 26; g := 43; b := 60 |}).
  reflexivity.
Defined.

Section WithRatio.
Variable ratio : RGB -> RGB -> Q.

Lemma geq_weaken x y z : (z <= y)%Q -> geq x y = true -> geq x z = true.
Proof.
  unfold geq. rewrite !Qle_bool_iff. intros Hzy Hyx. by apply (Qle_trans _ y).
Qed.

(** X23: the levels are ordered: a pair of colours that meets AAA meets
    AA for the same kind of text, and a pair that meets a level for
    normal text meets it for large text. *)
Theorem wcag_levels_ordered fg bg large :
  (meetsWCAG_AAA ratio fg bg large = true -> meetsWCAG_AA ratio fg bg large = true) /\
  (meetsWCAG_AA ratio fg bg false = true -> meetsWCAG_AA ratio fg bg true = true) /\
  (meetsWCAG_AAA ratio fg bg false = true -> meetsWCAG_AAA ratio fg bg true = true).
Proof.
  unfold meetsWCAG_AAA, meetsWCAG_AA. repeat split.
  - destruct large; apply geq_weaken; by vm_compute.
  - apply geq_weaken. by vm_compute.
  - apply geq_weaken. by vm_compute.
Qed.

(** X24: a colour that [hexToRgb] rejects never passes: the contrast
    ratio is 0 and no level is met, whatever the other colour and the
    kind of text. *)
Theorem unparsed_colour_fails fg bg large :
  hexToRgb fg = None \/ hexToRgb bg = None ->
  getContrastRatio ratio fg bg = 0%Q /\
  meetsWCAG_AA ratio fg bg large = false /\
  meetsWCAG_AAA ratio fg bg large = false.
Proof.
  intros Hbad.
  assert (H0 : getContrastRatio ratio fg bg = 0%Q).
  { unfold getContrastRatio. destruct Hbad as [-> | ->]; [done |].
    by destruct (hexToRgb fg). }
  unfold meetsWCAG_AA, meetsWCAG_AAA. rewrite H0.
  by destruct large.
Qed.
End WithRatio.

Lemma unparsed_colour_fails_witness :
  getContrastRatio (fun _ _ => 21%Q) "#fff" "#000000" = 0%Q /\
  meetsWCAG_AA (fun _ _ => 21%Q) "#fff" "#000000" true = false /\
  meetsWCAG_AAA (fun _ _ => 21%Q) "#fff" "#000000" true = false.
Proof.
  apply (unparsed_colour_fails (fun _ _ => 21%Q) "#fff" "#000000" true).
  left. reflexivity.
Defined.

End ColorContrastFacts.
